(** * The unzip file operation ([ufop/unzip/unzip.go])

    A shallow embedding of [Unzipper.Do] and the functions it calls.

    The driving control flow of [Do] is sequential; the upload closures it
    starts with [go func() { ... }()] run concurrently with it and with each
    other.  The embedding keeps that shape: [drive] is one move of the
    driver, [advance] one move of a started closure, and [step] is their
    interleaving.  [uploadWg] holds the closures that have been started and
    have not yet reached [uploadWg.Done()]. *)

From Stdlib Require Import Ascii.
From stdpp Require Import base numbers list relations strings pretty.

Local Open Scope string_scope.
Local Open Scope list_scope.
Local Open Scope Z_scope.

(** ** Results of fallible calls: Go's [(value, error)] pairs *)

Inductive Result (A : Type) : Type :=
| Ok (a : A)
| Err (msg : string).
Arguments Ok {A} a.
Arguments Err {A} msg.

#[global] Instance Result_ret : MRet Result := fun A a => Ok a.
#[global] Instance Result_bind : MBind Result := fun A B f r =>
  match r with
  | Ok a => f a
  | Err e => Err e
  end.

(** [errors.New(fmt.Sprintf(format_with_one_%s, e.Error()))] on the error path. *)
Definition wrapErr {A} (context : string) (r : Result A) : Result A :=
  match r with
  | Ok a => Ok a
  | Err e => Err (context +:+ e)
  end.

(** [errors.New(fixed)] on the error path, the cause is dropped. *)
Definition replaceErr {A} (fixed : string) (r : Result A) : Result A :=
  match r with
  | Ok a => Ok a
  | Err _ => Err fixed
  end.

Definition isOk {A} (r : Result A) : bool :=
  match r with
  | Ok _ => true
  | Err _ => false
  end.

(** ** Machine integers *)

Definition max_int : Z := 2 ^ 63 - 1.

(** Addition on Go's [int] (64 bit), with its wrap-around. *)
Definition wrap_int (z : Z) : Z := (z + 2 ^ 63) mod 2 ^ 64 - 2 ^ 63.

(** The conversion [int64(x)] of a [uint64]. *)
Definition int64_of_uint64 (x : Z) : Z := wrap_int x.

(** ** Constants *)

Definition UNZIP_MAX_ZIP_FILE_LENGTH : Z := 1 * 1024 * 1024 * 1024.
Definition UNZIP_MAX_FILE_LENGTH : Z := 100 * 1024 * 1024.
Definition UNZIP_MAX_FILE_COUNT : Z := 10.
Definition MAX_UPLOAD_WORKERS : Z := 100.

(** Locals of [Do] that are constants: [rputSettings] and [rputThreshold]. *)
Record Settings := { ChunkSize : Z; Workers : Z }.
Definition rputSettings : Settings := {| ChunkSize := 4 * 1024 * 1024; Workers := 1 |}.
Definition rputThreshold : Z := 100 * 1024 * 1024.

(** ** Data *)

Record UnzipFile := { Key : string; Hash : string; Error : string }.

(** [UnzipResult] has the single field [Files]. *)
Definition UnzipResult := list UnzipFile.

Record Mac := { MacAccessKey : string; MacSecretKey : string }.

Record Unzipper := {
  mac : Mac;
  maxZipFileLength : Z;
  maxFileLength : Z;
  maxFileCount : Z
}.

Record UnzipperConfig := {
  AccessKey : string;
  SecretKey : string;
  UnzipMaxZipFileLength : Z;
  UnzipMaxFileLength : Z;
  UnzipMaxFileCount : Z
}.

(** The fields of [ufop.UfopRequest] that [Do] reads. *)
Record UfopRequest := {
  Cmd : string;
  SrcUrl : string;
  SrcMimeType : string;
  SrcFsize : Z
}.

(** One [*zip.File].  [Open] is what [zipFile.Open()] gives, and inside it
    what [ioutil.ReadAll] gives on the reader. *)
Record ZipFile := {
  Name : string;
  UncompressedSize64 : Z;
  IsDir : bool;
  Open : Result (Result string)
}.

Record PutPolicy := { Scope : string }.
Record PutRet := { RetHash : string; RetKey : string }.

(** What [http.Get] hands back: status and what [ioutil.ReadAll(Body)] gives. *)
Record Response := { StatusCode : Z; Status : string; Body : Result string }.

(** A call on the blob store client, as the client sees it. *)
Inductive Call :=
| FioPut (uptoken key data : string)
| RioPut (settings : option Settings) (uptoken key data : string) (fsize : Z).

(** ** Collaborators

    Packages outside [unzip.go]: the regular expressions and [strconv] of
    the Go library, [ufop/utils], [net/http], [archive/zip] and the qiniu
    SDK.  The blob store is stateful, so its two put operations thread a
    [World]. *)

Class Collaborators := {
  World : Type;
  regexp_MatchString : string -> string -> bool;
  GetParamDecoded : string -> string -> string -> Result string;
  GetParam : string -> string -> string -> string;
  ParseInt : string -> Result Z;
  http_Get : string -> Result Response;
  zip_NewReader : string -> Result (list ZipFile);
  Gbk2Utf8 : string -> Result string;
  policy_Token : PutPolicy -> Mac -> string;
  fio_Put : string -> string -> string -> World -> Result PutRet * World;
  rio_Put : option Settings -> string -> string -> string -> Z -> World ->
            Result PutRet * World
}.

(** ** [unicode/utf8.Valid] *)

Module utf8.

(** The table [first] joined with [acceptRanges]: for a leading byte at or
    above [RuneSelf], the range of the second byte and the size of the
    sequence. *)
Definition first (b : N) : option (N * N * N) :=
  if (b <? 0xC2)%N then None
  else if (b <? 0xE0)%N then Some (0x80, 0xBF, 2)%N
  else if (b =? 0xE0)%N then Some (0xA0, 0xBF, 3)%N
  else if (b <? 0xED)%N then Some (0x80, 0xBF, 3)%N
  else if (b =? 0xED)%N then Some (0x80, 0x9F, 3)%N
  else if (b <? 0xF0)%N then Some (0x80, 0xBF, 3)%N
  else if (b =? 0xF0)%N then Some (0x90, 0xBF, 4)%N
  else if (b <? 0xF4)%N then Some (0x80, 0xBF, 4)%N
  else if (b =? 0xF4)%N then Some (0x80, 0x8F, 4)%N
  else None.

Definition between (lo hi c : N) : bool := ((lo <=? c) && (c <=? hi))%N.

Fixpoint ValidBytes (p : list N) : bool :=
  match p with
  | [] => true
  | pi :: p1 =>
    if (pi <? 0x80)%N then ValidBytes p1
    else match first pi with
    | None => false
    | Some (lo, hi, size) =>
      match p1 with
      | [] => false
      | c1 :: p2 =>
        if negb (between lo hi c1) then false
        else if (size =? 2)%N then ValidBytes p2
        else match p2 with
        | [] => false
        | c2 :: p3 =>
          if negb (between 0x80 0xBF c2) then false
          else if (size =? 3)%N then ValidBytes p3
          else match p3 with
          | [] => false
          | c3 :: p4 =>
            if negb (between 0x80 0xBF c3) then false else ValidBytes p4
          end
        end
      end
    end
  end.

Definition Valid (s : string) : bool :=
  ValidBytes (map N_of_ascii (String.list_ascii_of_string s)).

End utf8.

(** ** [InitConfig]

    The argument is what [os.Open] and then [decoder.Decode] give. *)

Definition InitConfig (jobConf : Result (Result UnzipperConfig)) : Result Unzipper :=
  decoded ← wrapErr "Open unzip config failed, " jobConf;
  config ← wrapErr "Parse unzip config failed, " decoded;
  Ok {| mac := {| MacAccessKey := AccessKey config; MacSecretKey := SecretKey config |};
        maxZipFileLength :=
          if UnzipMaxZipFileLength config <=? 0 then UNZIP_MAX_ZIP_FILE_LENGTH
          else UnzipMaxZipFileLength config;
        maxFileLength :=
          if UnzipMaxFileLength config <=? 0 then UNZIP_MAX_FILE_LENGTH
          else UnzipMaxFileLength config;
        maxFileCount :=
          if UnzipMaxFileCount config <=? 0 then UNZIP_MAX_FILE_COUNT
          else UnzipMaxFileCount config |}.

Section Unzip.

Context `{Collaborators}.

(** ** [parse] *)

Definition parse (cmd : string) : Result (string * string * bool) :=
  let pattern :=
    "^unzip/bucket/[0-9a-zA-Z-_=]+(/prefix/[0-9a-zA-Z-_=]+){0,1}(/overwrite/(0|1)){0,1}$" in
  if negb (regexp_MatchString pattern cmd) then Err "invalid unzip command format"
  else
    bucket ← replaceErr "invalid unzip parameter 'bucket'"
               (GetParamDecoded cmd "bucket/[0-9a-zA-Z-_=]+" "bucket");
    prefix ← replaceErr "invalid unzip parameter 'prefix'"
               (GetParamDecoded cmd "prefix/[0-9a-zA-Z-_=]+" "prefix");
    let overwriteStr := GetParam cmd "overwrite/(0|1)" "overwrite" in
    if String.eqb overwriteStr EmptyString then Ok (bucket, prefix, false)
    else
      overwriteVal ← replaceErr "invalid unzip parameter 'overwrite'"
                       (ParseInt overwriteStr);
      Ok (bucket, prefix, overwriteVal =? 1).

(** ** [Do], up to the loop over the entries *)

(** The locals of [Do] that the loop reads and writes. *)
Record Frame := {
  bucket : string;
  prefix : string;
  overwrite : bool;
  policy : PutPolicy;
  uploadCounter : Z
}.

(** Lines 143 to 191: command, mime type, declared length, download and
    the archive's index. *)
Definition readZip (this : Unzipper) (req : UfopRequest)
  : Result (string * string * bool * list ZipFile) :=
  '(bucket, prefix, overwrite) ← parse (Cmd req);
  if negb (String.eqb (SrcMimeType req) "application/zip"
           || String.eqb (SrcMimeType req) "application/x-zip-compressed")
  then Err "unsupported mimetype to unzip"
  else if maxZipFileLength this <? SrcFsize req
  then Err "src zip file length exceeds the limit"
  else
    resResp ← wrapErr "retrieve resource data failed, " (http_Get (SrcUrl req));
    if negb (StatusCode resResp =? 200)
    then Err ("retrieve resource data failed, " +:+ Status resResp)
    else
      respData ← wrapErr "read resource data failed, " (Body resResp);
      zipFiles ← wrapErr "invalid zip file, " (zip_NewReader respData);
      Ok (bucket, prefix, overwrite, zipFiles).

(** Lines 199 to 206: the scan of the declared sizes. *)
Fixpoint checkFileSize (this : Unzipper) (zipFiles : list ZipFile) : Result unit :=
  match zipFiles with
  | [] => Ok tt
  | zipFile :: rest =>
    let fileSize := UncompressedSize64 zipFile in
    if maxFileLength this <? fileSize then Err "zip file length exceeds the limit"
    else checkFileSize this rest
  end.

(** Lines 143 to 206. *)
Definition precheck (this : Unzipper) (req : UfopRequest)
  : Result (string * string * bool * list ZipFile) :=
  '(bucket, prefix, overwrite, zipFiles) ← readZip this req;
  let zipFileCount := Z.of_nat (length zipFiles) in
  if maxFileCount this <? zipFileCount then Err "zip files count exceeds the limit"
  else
    _ ← checkFileSize this zipFiles;
    Ok (bucket, prefix, overwrite, zipFiles).

(** ** The body of the loop, up to the [go] statement *)

(** The variables a started closure has captured.  Each is declared in the
    body of the loop, so every iteration has its own; [unzipResult] and
    [uploadWg], which the closures share, are in the state. *)
Record Task := {
  fileName : string;
  fileSize : Z;
  uptoken : string;
  unzipData : string;
  unzipFile : UnzipFile
}.

Inductive Iteration :=
| IterReturn (err : string)
| IterContinue
| IterGo (t : Task) (fr : Frame).

(** Lines 232 to 238. *)
Definition decodeName (fileName : string) : Result string :=
  if negb (utf8.Valid fileName)
  then wrapErr "unsupported file name encoding, " (Gbk2Utf8 fileName)
  else Ok fileName.

(** Lines 244 to 255. *)
Definition readEntry (zipFile : ZipFile) : Result string :=
  zipFileReader ← wrapErr "open zip file content failed, " (Open zipFile);
  wrapErr "unzip the file content failed, " zipFileReader.

(** Lines 228 to 268. *)
Definition iteration (this : Unzipper) (fr : Frame) (zipFile : ZipFile) : Iteration :=
  let fileSize := UncompressedSize64 zipFile in
  match decodeName (Name zipFile) with
  | Err e => IterReturn e
  | Ok fileName =>
    if IsDir zipFile then IterContinue
    else match readEntry zipFile with
    | Err e => IterReturn e
    | Ok unzipData =>
      let fileName := prefix fr +:+ fileName in
      let policy :=
        if overwrite fr then {| Scope := bucket fr +:+ ":" +:+ fileName |}
        else policy fr in
      let uptoken := policy_Token policy (mac this) in
      let unzipFile := {| Key := fileName; Hash := EmptyString; Error := EmptyString |} in
      IterGo {| fileName := fileName; fileSize := fileSize; uptoken := uptoken;
                unzipData := unzipData; unzipFile := unzipFile |}
             {| bucket := bucket fr; prefix := prefix fr; overwrite := overwrite fr;
                policy := policy; uploadCounter := wrap_int (uploadCounter fr + 1) |}
    end
  end.

(** ** The closure: lines 277 to 300 *)

(** The put the closure calls, chosen by [fileSize <= rputThreshold]. *)
Definition put (settings : option Settings) (t : Task) (w : World)
  : Call * (Result PutRet * World) :=
  if fileSize t <=? rputThreshold
  then (FioPut (uptoken t) (fileName t) (unzipData t),
        fio_Put (uptoken t) (fileName t) (unzipData t) w)
  else (RioPut settings (uptoken t) (fileName t) (unzipData t)
               (int64_of_uint64 (fileSize t)),
        rio_Put settings (uptoken t) (fileName t) (unzipData t)
                (int64_of_uint64 (fileSize t)) w).

(** What the closure makes of [unzipFile] once the put is back. *)
Definition record (unzipFile : UnzipFile) (r : Result PutRet) : UnzipFile :=
  match r with
  | Err e => {| Key := Key unzipFile; Hash := Hash unzipFile;
                Error := "save unzip file to bucket error, " +:+ e |}
  | Ok ret => {| Key := Key unzipFile; Hash := RetHash ret; Error := Error unzipFile |}
  end.

(** ** States *)

(** Where a started closure is: before its put, or between its put and
    its append under [resultLock]. *)
Inductive Goroutine :=
| Uploading (t : Task)
| Recording (unzipFile : UnzipFile).

(** Where the driver is. *)
Inductive Driver :=
| Loop (fr : Frame) (zipFiles : list ZipFile)
| Barrier (fr : Frame) (t : Task) (zipFiles : list ZipFile)
| Join
| Return (r : Result UnzipResult).

Record State := {
  driver : Driver;
  uploadWg : list Goroutine;
  Files : UnzipResult;
  rioSettings : option Settings;
  world : World;
  calls : list Call
}.

Definition setDriver (d : Driver) (s : State) : State :=
  {| driver := d; uploadWg := uploadWg s; Files := Files s;
     rioSettings := rioSettings s; world := world s; calls := calls s |}.

Definition setWg (wg : list Goroutine) (s : State) : State :=
  {| driver := driver s; uploadWg := wg; Files := Files s;
     rioSettings := rioSettings s; world := world s; calls := calls s |}.

(** [Do] when it reaches the loop, or when it has returned before it. *)
Definition enter (this : Unzipper) (req : UfopRequest) (w : World) : State :=
  match precheck this req with
  | Err e =>
    {| driver := Return (Err e); uploadWg := []; Files := [];
       rioSettings := None; world := w; calls := [] |}
  | Ok (bucket, prefix, overwrite, zipFiles) =>
    {| driver := Loop {| bucket := bucket; prefix := prefix; overwrite := overwrite;
                         policy := {| Scope := bucket |}; uploadCounter := 0 |}
                      zipFiles;
       uploadWg := []; Files := [];
       rioSettings := Some rputSettings; world := w; calls := [] |}
  end.

(** One move of the driver; [None] when it is blocked in
    [uploadWg.Wait()] or has returned. *)
Definition drive (this : Unzipper) (s : State) : option State :=
  match driver s with
  | Loop fr [] => Some (setDriver Join s)
  | Loop fr (zipFile :: rest) =>
    match iteration this fr zipFile with
    | IterReturn e => Some (setDriver (Return (Err e)) s)
    | IterContinue => Some (setDriver (Loop fr rest) s)
    | IterGo t fr' =>
      if Z.rem (uploadCounter fr') MAX_UPLOAD_WORKERS =? 0
      then Some (setDriver (Barrier fr' t rest) s)
      else Some (setDriver (Loop fr' rest) (setWg (uploadWg s ++ [Uploading t]) s))
    end
  | Barrier fr t rest =>
    match uploadWg s with
    | [] => Some (setDriver (Loop fr rest) (setWg [Uploading t] s))
    | _ :: _ => None
    end
  | Join =>
    match uploadWg s with
    | [] => Some (setDriver (Return (Ok (Files s))) s)
    | _ :: _ => None
    end
  | Return _ => None
  end.

(** One move of the [i]-th started closure. *)
Definition advance (i : nat) (s : State) : option State :=
  match uploadWg s !! i with
  | None => None
  | Some (Uploading t) =>
    let '(call, (r, w)) := put (rioSettings s) t (world s) in
    Some {| driver := driver s;
            uploadWg := <[i := Recording (record (unzipFile t) r)]> (uploadWg s);
            Files := Files s; rioSettings := rioSettings s;
            world := w; calls := calls s ++ [call] |}
  | Some (Recording unzipFile) =>
    Some {| driver := driver s; uploadWg := delete i (uploadWg s);
            Files := Files s ++ [unzipFile]; rioSettings := rioSettings s;
            world := world s; calls := calls s |}
  end.

Inductive step (this : Unzipper) (s s' : State) : Prop :=
| step_drive : drive this s = Some s' -> step this s s'
| step_advance i : advance i s = Some s' -> step this s s'.

Definition reachable (this : Unzipper) (req : UfopRequest) (w : World) (s : State) : Prop :=
  rtc (step this) (enter this req w) s.

(** ** A scheduler

    [sched] lets the oldest started closure move whenever there is one,
    and the driver otherwise; [run] iterates it.  [budget] bounds the
    moves that are left in a state, under any schedule. *)

Definition sched (this : Unzipper) (s : State) : option State :=
  match uploadWg s with
  | _ :: _ => advance 0 s
  | [] => drive this s
  end.

Fixpoint run (this : Unzipper) (fuel : nat) (s : State) : State :=
  match fuel with
  | O => s
  | S fuel' =>
    match sched this s with
    | Some s' => run this fuel' s'
    | None => s
    end
  end.

(** Another scheduler: the driver moves whenever it can, a closure moves
    only while the driver is blocked, and nothing moves once the call has
    returned. *)
Definition schedDriverFirst (this : Unzipper) (s : State) : option State :=
  match driver s with
  | Return _ => None
  | _ =>
    match drive this s with
    | Some s' => Some s'
    | None => advance 0 s
    end
  end.

Fixpoint runDriverFirst (this : Unzipper) (fuel : nat) (s : State) : State :=
  match fuel with
  | O => s
  | S fuel' =>
    match schedDriverFirst this s with
    | Some s' => runDriverFirst this fuel' s'
    | None => s
    end
  end.

Definition goroutineBudget (g : Goroutine) : nat :=
  match g with
  | Uploading _ => 2
  | Recording _ => 1
  end.

Definition driverBudget (d : Driver) : nat :=
  match d with
  | Loop _ zipFiles => 4 * length zipFiles + 2
  | Barrier _ _ zipFiles => 4 * length zipFiles + 5
  | Join => 1
  | Return _ => 0
  end.

Definition budget (s : State) : nat :=
  driverBudget (driver s) + sum_list_with goroutineBudget (uploadWg s).

(** [Do] has returned and every closure it started is through. *)
Definition settled (s : State) : Prop :=
  (exists r, driver s = Return r) /\ uploadWg s = [].

(** ** Vocabulary of the statements *)

(** What the call has returned, if it has. *)
Definition returned (s : State) : option (Result UnzipResult) :=
  match driver s with
  | Return r => Some r
  | _ => None
  end.

(** The number of closures started so far: those still in [uploadWg] and
    those that have appended their outcome. *)
Definition launched (s : State) : Z :=
  Z.of_nat (length (Files s)) + Z.of_nat (length (uploadWg s)).

(** The key under which an entry is stored: none for a directory. *)
Definition targetKey (prefix : string) (zipFile : ZipFile) : option string :=
  if IsDir zipFile then None
  else match decodeName (Name zipFile) with
  | Ok decodedName => Some (prefix +:+ decodedName)
  | Err _ => None
  end.

Definition expectedKeys (prefix : string) (zipFiles : list ZipFile) : list string :=
  omap (targetKey prefix) zipFiles.

Definition regular (zipFiles : list ZipFile) : list ZipFile :=
  filter (fun zipFile => IsDir zipFile = false) zipFiles.

Definition goroutineKey (g : Goroutine) : string :=
  match g with
  | Uploading t => Key (unzipFile t)
  | Recording unzipFile => Key unzipFile
  end.

(** The closure [Do] starts for the regular entry [zipFile], whose name
    decodes to [decodedName] and whose content is [data]. *)
Definition taskOf (this : Unzipper) (bucket prefix : string) (overwrite : bool)
    (zipFile : ZipFile) (decodedName data : string) : Task :=
  let key := prefix +:+ decodedName in
  {| fileName := key;
     fileSize := UncompressedSize64 zipFile;
     uptoken := policy_Token
                  {| Scope := if overwrite then bucket +:+ ":" +:+ key else bucket |}
                  (mac this);
     unzipData := data;
     unzipFile := {| Key := key; Hash := EmptyString; Error := EmptyString |} |}.

Definition fromEntry (this : Unzipper) (bucket prefix : string) (overwrite : bool)
    (zipFiles : list ZipFile) (t : Task) : Prop :=
  exists zipFile decodedName data,
    zipFile ∈ zipFiles /\ IsDir zipFile = false /\
    decodeName (Name zipFile) = Ok decodedName /\
    Open zipFile = Ok (Ok data) /\
    t = taskOf this bucket prefix overwrite zipFile decodedName data.

(** The put of closure [t] in world [w]: the call and its result. *)
Definition putCall (t : Task) (w : World) : Call := (put (Some rputSettings) t w).1.
Definition putResult (t : Task) (w : World) : Result PutRet :=
  (put (Some rputSettings) t w).2.1.

(** A field of [UnzipFile] is set when it is not the empty string: that
    is when [omitempty] keeps it in the report. *)
Definition isSet (field : string) : Prop := field <> EmptyString.

(** The strategy that the specification selects for a declared size: a
    direct put at or below 100 MiB, a resumable put in chunks of 4 MiB
    with the declared length above it. *)
Inductive Strategy :=
| DirectPut
| ResumablePut (chunkSize : Z) (totalLength : Z).

Definition selectStrategy (declaredSize : Z) : Strategy :=
  if declaredSize <=? 104857600 then DirectPut
  else ResumablePut 4194304 declaredSize.

Definition strategyOf (c : Call) : option Strategy :=
  match c with
  | FioPut _ _ _ => Some DirectPut
  | RioPut (Some settings) _ _ _ fsize => Some (ResumablePut (ChunkSize settings) fsize)
  | RioPut None _ _ _ _ => None
  end.

(** The put that the specification expects for the regular entry
    [zipFile] stored under [key] with the token [tok]: it is [c]. *)
Definition selected (zipFile : ZipFile) (tok key data : string) (c : Call) : Prop :=
  let size := UncompressedSize64 zipFile in
  (size <= 100 * 1024 * 1024 -> c = FioPut tok key data) /\
  (100 * 1024 * 1024 < size ->
   c = RioPut (Some {| ChunkSize := 4 * 1024 * 1024; Workers := 1 |}) tok key data
              (int64_of_uint64 size)) /\
  (0 <= size <= max_int -> strategyOf c = Some (selectStrategy size)).

(** The key of a regular entry is the prefix followed by the decoded name. *)
Definition keyOfEntry (p : string) (zipFile : ZipFile) (key : string) : Prop :=
  exists decodedName,
    decodeName (Name zipFile) = Ok decodedName /\ key = p +:+ decodedName.

(** ** Invariants of the interleaving

    They are stated for one call: [bucket], [prefix] and [overwrite] are
    what [parse] gave and [zipFiles] is the archive's index. *)

Definition frameOf (b p : string) (o : bool) (fr : Frame) : Prop :=
  bucket fr = b /\ prefix fr = p /\ overwrite fr = o /\
  (o = false -> policy fr = {| Scope := b |}).

(** An outcome is what some closure of the call made of its put. *)
Definition outcomeOf (this : Unzipper) (b p : string) (o : bool)
    (zipFiles : list ZipFile) (unzipFile' : UnzipFile) : Prop :=
  exists t w, fromEntry this b p o zipFiles t /\
              unzipFile' = record (unzipFile t) (putResult t w).

Definition callOf (this : Unzipper) (b p : string) (o : bool)
    (zipFiles : list ZipFile) (c : Call) : Prop :=
  exists t w, fromEntry this b p o zipFiles t /\ c = putCall t w.

Definition goroutineOf (this : Unzipper) (b p : string) (o : bool)
    (zipFiles : list ZipFile) (g : Goroutine) : Prop :=
  match g with
  | Uploading t => fromEntry this b p o zipFiles t
  | Recording unzipFile' => outcomeOf this b p o zipFiles unzipFile'
  end.

Definition driverOf (this : Unzipper) (b p : string) (o : bool)
    (zipFiles : list ZipFile) (d : Driver) : Prop :=
  match d with
  | Loop fr rest => frameOf b p o fr /\ rest ⊆ zipFiles
  | Barrier fr t rest =>
    frameOf b p o fr /\ rest ⊆ zipFiles /\ fromEntry this b p o zipFiles t
  | Join => True
  | Return (Ok files) => Forall (outcomeOf this b p o zipFiles) files
  | Return (Err _) => True
  end.

(** Where everything in a state comes from. *)
Definition provenance (this : Unzipper) (b p : string) (o : bool)
    (zipFiles : list ZipFile) (s : State) : Prop :=
  driverOf this b p o zipFiles (driver s) /\
  Forall (goroutineOf this b p o zipFiles) (uploadWg s) /\
  Forall (outcomeOf this b p o zipFiles) (Files s) /\
  Forall (callOf this b p o zipFiles) (calls s) /\
  rioSettings s = Some rputSettings.

(** The keys recorded, in flight and still to come are the keys of the
    regular entries. *)
Definition keysHeld (s : State) : list string :=
  map Key (Files s) ++ map goroutineKey (uploadWg s).

Definition keysInv (p : string) (zipFiles : list ZipFile) (s : State) : Prop :=
  match driver s with
  | Loop fr rest =>
    keysHeld s ++ expectedKeys p rest ≡ₚ expectedKeys p zipFiles
  | Barrier fr t rest =>
    keysHeld s ++ Key (unzipFile t) :: expectedKeys p rest ≡ₚ expectedKeys p zipFiles
  | Join => keysHeld s ≡ₚ expectedKeys p zipFiles
  | Return (Ok files) => map Key files ≡ₚ expectedKeys p zipFiles
  | Return (Err _) => True
  end.

(** [uploadCounter] counts the closures started, and bounds those that
    have not finished. *)
Definition countInv (s : State) : Prop :=
  Z.of_nat (length (uploadWg s)) <= MAX_UPLOAD_WORKERS /\
  match driver s with
  | Loop fr rest =>
    uploadCounter fr = launched s /\
    uploadCounter fr + Z.of_nat (length rest) <= max_int /\
    Z.of_nat (length (uploadWg s)) <= Z.rem (uploadCounter fr) MAX_UPLOAD_WORKERS + 1
  | Barrier fr t rest =>
    uploadCounter fr = launched s + 1 /\
    uploadCounter fr + Z.of_nat (length rest) <= max_int /\
    Z.rem (uploadCounter fr) MAX_UPLOAD_WORKERS = 0
  | Join | Return _ => True
  end.

(** An entry the loop gets past: its name decodes and, unless it is a
    directory, its content can be read. *)
Definition extracts (zipFile : ZipFile) : Prop :=
  isOk (decodeName (Name zipFile)) = true /\
  (IsDir zipFile = false -> isOk (readEntry zipFile) = true).

(** An entry whose name is neither UTF-8 nor GBK. *)
Definition undecodable (zipFile : ZipFile) : Prop :=
  utf8.Valid (Name zipFile) = false /\ isOk (Gbk2Utf8 (Name zipFile)) = false.

(** With entries that all extract, the call does not return an error. *)
Definition cleanInv (s : State) : Prop :=
  match driver s with
  | Loop _ rest | Barrier _ _ rest => Forall extracts rest
  | Join | Return (Ok _) => True
  | Return (Err _) => False
  end.

(** The entries the loop has got past all extract. *)
Definition processedInv (zipFiles : list ZipFile) (s : State) : Prop :=
  match driver s with
  | Loop _ rest | Barrier _ _ rest =>
    exists past, zipFiles = past ++ rest /\ Forall extracts past
  | Join | Return (Ok _) => Forall extracts zipFiles
  | Return (Err _) => True
  end.

(** With an undecodable name ahead, the call does not return a report. *)
Definition doomedInv (s : State) : Prop :=
  match driver s with
  | Loop _ rest | Barrier _ _ rest => Exists undecodable rest
  | Join | Return (Ok _) => False
  | Return (Err _) => True
  end.

(** ** More vocabulary: the puts and the outcomes *)

Definition callKey (c : Call) : string :=
  match c with
  | FioPut _ key _ | RioPut _ _ key _ _ => key
  end.

Definition callToken (c : Call) : string :=
  match c with
  | FioPut uptoken _ _ | RioPut _ uptoken _ _ _ => uptoken
  end.

Definition callData (c : Call) : string :=
  match c with
  | FioPut _ _ data | RioPut _ _ _ data _ => data
  end.

(** The outcome of a closure whose put is back and whose append is to come. *)
Definition recording (g : Goroutine) : option UnzipFile :=
  match g with
  | Recording unzipFile' => Some unzipFile'
  | Uploading _ => None
  end.

(** A report is returned with nothing left in [uploadWg], and it is what
    has been appended to [unzipResult.Files]. *)
Definition joinedInv (s : State) : Prop :=
  match driver s with
  | Return (Ok files) => files = Files s /\ uploadWg s = []
  | _ => True
  end.

(** The keys put are the keys of the outcomes made so far. *)
Definition putsInv (s : State) : Prop :=
  map callKey (calls s) ≡ₚ
  map Key (Files s) ++ map Key (omap recording (uploadWg s)).

(** The entries the driver has still to go through, the one whose closure
    waits at the barrier included. *)
Definition ahead (d : Driver) : nat :=
  match d with
  | Loop _ rest => length rest
  | Barrier _ _ rest => S (length rest)
  | Join | Return _ => 0
  end.

Definition boundInv (zipFiles : list ZipFile) (s : State) : Prop :=
  (length (Files s) + length (uploadWg s) + ahead (driver s) <= length zipFiles)%nat.

(** The entry makes the loop return the error [e]. *)
Definition fails (zipFile : ZipFile) (e : string) : Prop :=
  decodeName (Name zipFile) = Err e \/
  (isOk (decodeName (Name zipFile)) = true /\ IsDir zipFile = false /\
   readEntry zipFile = Err e).

(** The entry [zipFile] is ahead, and the entries before it extract. *)
Definition firstFailureInv (zipFile : ZipFile) (e : string) (after : list ZipFile)
    (s : State) : Prop :=
  match driver s with
  | Loop _ rest | Barrier _ _ rest =>
    exists before, rest = before ++ zipFile :: after /\ Forall extracts before
  | Join | Return (Ok _) => False
  | Return (Err e') => e' = e
  end.

(** ** The puts in the order in which they were issued

    [issue w ts] lets the closures [ts] do their put one after the other,
    the first in the world [w] and each next one in the world the one
    before has left: it gives each put with its call and its result, and
    the world after the last. *)

Record Put := {
  issuedTask : Task;
  issuedCall : Call;
  issuedResult : Result PutRet
}.

Fixpoint issue (w : World) (ts : list Task) : list Put * World :=
  match ts with
  | [] => ([], w)
  | t :: ts' =>
    let '(c, (r, w1)) := put (Some rputSettings) t w in
    let '(puts, w2) := issue w1 ts' in
    ({| issuedTask := t; issuedCall := c; issuedResult := r |} :: puts, w2)
  end.

(** What the closure makes of its put. *)
Definition outcomeOfPut (pt : Put) : UnzipFile :=
  record (unzipFile (issuedTask pt)) (issuedResult pt).

(** The calls and the store of a state are those of the puts issued so
    far, and the outcomes made so far are the outcomes of exactly these
    puts. *)
Definition historyInv (this : Unzipper) (b p : string) (o : bool)
    (zipFiles : list ZipFile) (w : World) (s : State) : Prop :=
  exists ts,
    Forall (fromEntry this b p o zipFiles) ts /\
    calls s = map issuedCall (issue w ts).1 /\
    world s = (issue w ts).2 /\
    Files s ++ omap recording (uploadWg s) ≡ₚ map outcomeOfPut (issue w ts).1.

End Unzip.

(** ** A concrete set of collaborators

    A blob store that keeps the objects put so far and refuses a key that
    is taken unless the token is scoped to that key, a download that
    answers with the URL as content, and a handful of archives. *)

Module Demo.

Definition Store := list (string * string).

Definition taken (key : string) (w : Store) : bool :=
  existsb (fun object => String.eqb object.1 key) w.

Definition token (p : PutPolicy) (m : Mac) : string :=
  MacAccessKey m +:+ ":" +:+ Scope p.

(** The hash the store reports for a content. *)
Definition etag (data : string) : string := "etag-" +:+ data.

Definition storePut (hashOf : string -> string) (uptoken key data : string) (w : Store)
  : Result PutRet * Store :=
  if taken key w && negb (String.eqb uptoken ("ak:bkt:" +:+ key))
  then (Err "file exists", w)
  else (Ok {| RetHash := hashOf data; RetKey := key |}, (key, data) :: w).

Definition file (name : string) (size : Z) (data : string) : ZipFile :=
  {| Name := name; UncompressedSize64 := size; IsDir := false; Open := Ok (Ok data) |}.

Definition dir (name : string) : ZipFile :=
  {| Name := name; UncompressedSize64 := 0; IsDir := true; Open := Ok (Ok EmptyString) |}.

(** The name [b"\xD6\xD0.txt"]: the GBK bytes of one Chinese character,
    which are not UTF-8; and a name no GBK decoder accepts. *)
Definition gbkName : string := String "214"%char (String "208"%char ".txt").
Definition utf8Name : string :=
  String "228"%char (String "184"%char (String "173"%char ".txt")).
Definition brokenName : string := String "255"%char "/".

Definition gbk2utf8 (s : string) : Result string :=
  if String.eqb s gbkName then Ok utf8Name else Err "illegal byte sequence".

(** [n] small files named [a], [b], ... *)
Definition numbered (n : nat) : list ZipFile :=
  map (fun i => file (String (ascii_of_nat (97 + i mod 26)) ".txt") 1 "x") (seq 0 n).

Definition abc : list ZipFile :=
  [file "a.txt" 10 "0123456789"; dir "b/"; file "b/c.txt" 20 "01234567890123456789"].

(** An entry whose content breaks off. *)
Definition unreadable : ZipFile :=
  {| Name := "b.txt"; UncompressedSize64 := 20; IsDir := false;
     Open := Ok (Err "unexpected EOF") |}.

Definition truncated : list ZipFile := [file "a.txt" 10 "0123456789"; unreadable].

Definition archive (respData : string) : Result (list ZipFile) :=
  if String.eqb respData "http://src/abc.zip" then Ok abc
  else if String.eqb respData "http://src/eleven.zip" then Ok (numbered 11)
  else if String.eqb respData "http://src/many.zip" then Ok (numbered 250)
  else if String.eqb respData "http://src/late-big.zip"
    then Ok [file "a.txt" 10 "0123456789"; file "big.bin" 104857601 "0"]
  else if String.eqb respData "http://src/empty-big.zip"
    then Ok [file "empty" 0 EmptyString; file "big.bin" 104857601 "0"]
  else if String.eqb respData "http://src/truncated.zip" then Ok truncated
  else if String.eqb respData "http://src/long-truncated.zip"
    then Ok (numbered 120 ++ [unreadable])
  else if String.eqb respData "http://src/twins.zip"
    then Ok [file "a.txt" 1 "x"; file "a.txt" 1 "y"]
  else if String.eqb respData "http://src/gbk.zip"
    then Ok [file gbkName 1 "x"; dir "b/"]
  else if String.eqb respData "http://src/broken-dir.zip"
    then Ok [file "a.txt" 1 "x"; dir brokenName]
  else Err "zip: not a valid zip file".

Definition collaborators (hashOf : string -> string) : Collaborators :=
  {| World := Store;
     regexp_MatchString := fun _ cmd => String.prefix "unzip/bucket/" cmd;
     GetParamDecoded := fun _ _ key =>
       if String.eqb key "bucket" then Ok "bkt" else Ok "out/";
     GetParam := fun _ _ _ => EmptyString;
     ParseInt := fun s => if String.eqb s "1" then Ok 1 else Ok 0;
     http_Get := fun url =>
       Ok {| StatusCode := 200; Status := "200 OK"; Body := Ok url |};
     zip_NewReader := archive;
     Gbk2Utf8 := gbk2utf8;
     policy_Token := token;
     fio_Put := storePut hashOf;
     rio_Put := fun _ uptoken key data _ => storePut hashOf uptoken key data |}.

(** The store reports the hash of what it stored. *)
Definition standard : Collaborators := collaborators etag.

(** A store whose answer to a put carries no hash. *)
Definition hashless : Collaborators := collaborators (fun _ => EmptyString).

(** The unzipper of a configuration file that sets the keys only. *)
Definition defaults : UnzipperConfig :=
  {| AccessKey := "ak"; SecretKey := "sk"; UnzipMaxZipFileLength := 0;
     UnzipMaxFileLength := 0; UnzipMaxFileCount := 0 |}.

Definition unzipper : Unzipper :=
  {| mac := {| MacAccessKey := "ak"; MacSecretKey := "sk" |};
     maxZipFileLength := UNZIP_MAX_ZIP_FILE_LENGTH;
     maxFileLength := UNZIP_MAX_FILE_LENGTH;
     maxFileCount := UNZIP_MAX_FILE_COUNT |}.

(** An unzipper configured for large archives of large files. *)
Definition roomy : Unzipper :=
  {| mac := {| MacAccessKey := "ak"; MacSecretKey := "sk" |};
     maxZipFileLength := UNZIP_MAX_ZIP_FILE_LENGTH;
     maxFileLength := 1024 * 1024 * 1024;
     maxFileCount := 1000 |}.

Definition request (url : string) : UfopRequest :=
  {| Cmd := "unzip/bucket/Ymt0/prefix/b3V0Lw=="; SrcUrl := url;
     SrcMimeType := "application/zip"; SrcFsize := 4096 |}.

(** The state in which a call enters the loop, the state in which the
    scheduler leaves it, and the state in which the driver has gone as far
    as it can while no closure moves. *)
Definition start (hashOf : string -> string) (u : Unzipper) (url : string) : State :=
  @enter (collaborators hashOf) u (request url) [].

Definition finish (hashOf : string -> string) (u : Unzipper) (url : string) : State :=
  @run (collaborators hashOf) u 2000 (start hashOf u url).

Definition driverAhead (fuel : nat) (hashOf : string -> string) (u : Unzipper)
    (url : string) : State :=
  @runDriverFirst (collaborators hashOf) u fuel (start hashOf u url).

End Demo.

(** * The two converters ([ufop/html2pdf/html2pdf.go] and
      [ufop/html2image])

    Both parse a command, check the source, build the arguments of an
    external converter, run it and hand back the file it wrote. *)

(** What [Do] observes of the converter it starts: the results of
    [StderrPipe], [Start], [ioutil.ReadAll] on the pipe, [Wait], and of
    [os.Stat] on the result file afterwards (its size). *)
Record Process := {
  StderrPipe : Result unit;
  Start : Result unit;
  ReadStderr : Result string;
  Wait : Result unit;
  Stat : Result Z
}.

(** Packages outside the two files.  [Atoi] is the value [strconv.Atoi]
    returns: every caller drops its error. *)
Class Shell := {
  Atoi : string -> Z;
  Md5Hex : string -> string;
  TempDir : string;
  filepath_Join : string -> string -> string;
  exec_Command : string -> list string -> Process
}.

(** What [Do] does to the outside: it starts the converter, waits for it,
    removes the result file. *)
Inductive Event :=
| Started (name : string) (args : list string)
| Waited
| Removed (path : string).

Inductive ResultType := RESULT_TYPE_JSON | RESULT_TYPE_OCTECT_FILE.

Module html2pdf.

Definition HTML2PDF_MAX_PAGE_SIZE : Z := 10 * 1024 * 1024.
Definition HTML2PDF_MAX_COPIES : Z := 10.

Record Html2Pdfer := { maxPageSize : Z; maxCopies : Z }.

Record Html2PdferConfig := { Html2PdfMaxPageSize : Z; Html2PdfMaxCopies : Z }.

Record Html2PdfOptions := {
  Gray : bool;
  LowQuality : bool;
  Orientation : string;
  Size : string;
  Title : string;
  Collate : bool;
  Copies : Z
}.

Definition InitConfig (jobConf : Result (Result Html2PdferConfig)) : Result Html2Pdfer :=
  decoded ← wrapErr "Open html2pdf config failed, " jobConf;
  config ← wrapErr "Parse html2pdf config failed, " decoded;
  Ok {| maxPageSize :=
          if Html2PdfMaxPageSize config <=? 0 then HTML2PDF_MAX_PAGE_SIZE
          else Html2PdfMaxPageSize config;
        maxCopies :=
          if Html2PdfMaxCopies config <=? 0 then HTML2PDF_MAX_COPIES
          else Html2PdfMaxCopies config |}.

Section Html2Pdf.

Context {collaborators : Collaborators} {shell : Shell}.

Definition parse (cmd : string) : Result (string * Html2PdfOptions) :=
  let pattern :=
    "^html2pdf/url/[0-9a-zA-Z-_=]+(/gray/[0|1]|/low/[0|1]|/orient/(Portrait|Landscape)|/size/[A-B][0-8]|/title/[0-9a-zA-Z-_=]+|/collate/[0|1]|/copies/\d+){0,7}$" in
  if negb (regexp_MatchString pattern cmd) then Err "invalid html2pdf command format"
  else
    url ← replaceErr "invalid html2pdf parameter 'url'"
            (GetParamDecoded cmd "url/[0-9a-zA-Z-_=]+" "url");
    let grayStr := GetParam cmd "gray/[0|1]" "gray" in
    let gray := if String.eqb grayStr EmptyString then false else Atoi grayStr =? 1 in
    let lowStr := GetParam cmd "low/[0|1]" "low" in
    let low := if String.eqb lowStr EmptyString then false else Atoi lowStr =? 1 in
    let orientation := GetParam cmd "orient/(Portrait|Landscape)" "orient" in
    let size := GetParam cmd "size/[A-B][0-8]" "size" in
    title ← replaceErr "invalid html2pdf parameter 'title'"
              (GetParamDecoded cmd "title/[0-9a-zA-Z-_=]+" "title");
    let collateStr := GetParam cmd "collate/[0|1]" "collate" in
    let collate :=
      if String.eqb collateStr EmptyString then true else negb (Atoi collateStr =? 0) in
    let copiesStr := GetParam cmd "copies/\d+" "copies" in
    copies ← (if String.eqb copiesStr EmptyString then Ok 1
              else
                let copiesInt := Atoi copiesStr in
                if copiesInt <=? 0 then Err "invalid html2pdf parameter 'copies'"
                else Ok copiesInt);
    Ok (url, {| Gray := gray; LowQuality := low; Orientation := orientation;
                Size := size; Title := title; Collate := collate; Copies := copies |}).

(** Lines 186 to 215: the arguments before the source and the result. *)
Definition cmdParams (options : Html2PdfOptions) : list string :=
  ["-q"]
  ++ (if Gray options then ["--grayscale"] else [])
  ++ (if LowQuality options then ["--lowquality"] else [])
  ++ (if String.eqb (Orientation options) EmptyString then []
      else ["--orientation"; Orientation options])
  ++ (if String.eqb (Size options) EmptyString then []
      else ["--page-size"; Size options])
  ++ (if String.eqb (Title options) EmptyString then []
      else ["--title"; Title options])
  ++ [if Collate options then "--collate" else "--no-collate"]
  ++ ["--copies"; pretty (Copies options)].

(** Line 218 and 219; [now] is [time.Now().UnixNano()]. *)
Definition resultPath (req : UfopRequest) (now : Z) : string :=
  let jobPrefix := Md5Hex (SrcUrl req) in
  filepath_Join TempDir (jobPrefix +:+ pretty now +:+ ".result.pdf").

Definition Do (this : Html2Pdfer) (req : UfopRequest) (now : Z)
  : Result (string * ResultType * string) * list Event :=
  match parse (Cmd req) with
  | Err pErr => (Err pErr, [])
  | Ok (remoteSrcUrl, options) =>
    if negb (String.prefix "text/" (SrcMimeType req))
    then (Err "unsupported file mime type, only text/* allowed", [])
    else if maxPageSize this <? SrcFsize req
    then (Err "page file length exceeds the limit", [])
    else if maxCopies this <? Copies options
    then (Err "pdf copies exceeds the limit", [])
    else
      let resultTmpFpath := resultPath req now in
      let args := cmdParams options ++ [remoteSrcUrl; resultTmpFpath] in
      let convertCmd := exec_Command "wkhtmltopdf" args in
      let started := Started "wkhtmltopdf" args in
      match StderrPipe convertCmd with
      | Err e => (Err ("open exec stderr pipe error, " +:+ e), [])
      | Ok _ =>
        match Start convertCmd with
        | Err e => (Err ("start html2pdf command error, " +:+ e), [])
        | Ok _ =>
          match ReadStderr convertCmd with
          | Err e =>
            (Err ("read html2pdf command stderr error, " +:+ e),
             [started; Removed resultTmpFpath])
          | Ok _ =>
            match Wait convertCmd with
            | Err e =>
              (Err ("wait html2pdf to exit error, " +:+ e),
               [started; Waited; Removed resultTmpFpath])
            | Ok _ =>
              if (match Stat convertCmd with
                  | Err _ => true
                  | Ok size => size =? 0
                  end)
              then (Err "html2pdf with no valid output result",
                    [started; Waited; Removed resultTmpFpath])
              else (Ok (resultTmpFpath, RESULT_TYPE_OCTECT_FILE, "application/pdf"),
                    [started; Waited])
            end
          end
        end
      end
  end.

End Html2Pdf.

End html2pdf.

Module html2image.

Definition HTML2IMAGE_MAX_PAGE_SIZE : Z := 10 * 1024 * 1024.

Record Html2Imager := { maxPageSize : Z }.

Record Html2ImagerConfig := { Html2ImageMaxPageSize : Z }.

Record Html2ImageOptions := {
  CropH : Z;
  CropW : Z;
  CropX : Z;
  CropY : Z;
  Format : string;
  Height : Z;
  Width : Z;
  Quality : Z;
  Force : bool
}.

Definition InitConfig (jobConf : Result (Result Html2ImagerConfig)) : Result Html2Imager :=
  decoded ← wrapErr "Open html2image config failed, " jobConf;
  config ← wrapErr "Parse html2image config failed, " decoded;
  Ok {| maxPageSize :=
          if Html2ImageMaxPageSize config <=? 0 then HTML2IMAGE_MAX_PAGE_SIZE
          else Html2ImageMaxPageSize config |}.

Section Html2Image.

Context {collaborators : Collaborators} {shell : Shell}.

(** The block that [parse] repeats for [croph], [cropw], [cropx], [cropy],
    [height] and [width]: the option keeps its zero value when the
    parameter is absent, and a value that is not positive is an error. *)
Definition dimension (cmd pattern key invalid : string) : Result Z :=
  let str := GetParam cmd pattern key in
  if String.eqb str EmptyString then Ok 0
  else
    let value := Atoi str in
    if value <=? 0 then Err invalid else Ok value.

Definition parse (cmd : string) : Result (string * Html2ImageOptions) :=
  let pattern :=
    "^html2image/url/[0-9a-zA-Z-_=]+(/croph/\d+|/cropw/\d+|/cropx/\d+|/cropy/\d+|/format/(png|jpg|jpeg)|/height/\d+|/quality/\d+|/width/\d+|/force/[0|1]){0,9}$" in
  if negb (regexp_MatchString pattern cmd) then Err "invalid html2image command format"
  else
    url ← replaceErr "invalid html2image parameter 'url'"
            (GetParamDecoded cmd "url/[0-9a-zA-Z-_=]+" "url");
    cropH ← dimension cmd "croph/\d+" "croph" "invalid html2image parameter 'croph'";
    cropW ← dimension cmd "cropw/\d+" "cropw" "invalid html2image parameter 'cropw'";
    cropX ← dimension cmd "cropx/\d+" "cropx" "invalid html2image parameter 'cropx'";
    cropY ← dimension cmd "cropy/\d+" "cropy" "invalid html2image parameter 'cropy'";
    let formatStr := GetParam cmd "format/(png|jpg|jpeg)" "format" in
    let format := if String.eqb formatStr EmptyString then "jpg" else formatStr in
    height ← dimension cmd "height/\d+" "height" "invalid html2image parameter 'height'";
    width ← dimension cmd "width/\d+" "width" "invalid html2image parameter 'width'";
    let qualityStr := GetParam cmd "quality/\d+" "quality" in
    quality ← (if String.eqb qualityStr EmptyString then Ok 0
               else
                 let quality := Atoi qualityStr in
                 if (100 <? quality) || (quality <=? 0)
                 then Err "invalid html2image parameter 'quality'"
                 else Ok quality);
    let forceStr := GetParam cmd "force/[0|1]" "force" in
    let force := if String.eqb forceStr EmptyString then false else Atoi forceStr =? 1 in
    Ok (url, {| CropH := cropH; CropW := cropW; CropX := cropX; CropY := cropY;
                Format := format; Height := height; Width := width;
                Quality := quality; Force := force |}).

(** [--flag value] when the value is positive. *)
Definition positive (flag : string) (value : Z) : list string :=
  if 0 <? value then [flag; pretty value] else [].

(** Lines 219 to 256. *)
Definition cmdParams (options : Html2ImageOptions) : list string :=
  positive "--crop-h" (CropH options)
  ++ positive "--crop-w" (CropW options)
  ++ positive "--crop-x" (CropX options)
  ++ positive "--crop-y" (CropY options)
  ++ (if String.eqb (Format options) EmptyString then []
      else ["--format"; Format options])
  ++ positive "--quality" (Quality options)
  ++ positive "--height" (Height options)
  ++ positive "--width" (Width options)
  ++ (if Force options then ["--disable-smart-width"] else []).

Definition resultPath (req : UfopRequest) (now : Z) (options : Html2ImageOptions)
  : string :=
  let jobPrefix := Md5Hex (SrcUrl req) in
  filepath_Join TempDir (jobPrefix +:+ pretty now +:+ ".result." +:+ Format options).

Definition Do (this : Html2Imager) (req : UfopRequest) (now : Z)
  : Result (string * ResultType * string) * list Event :=
  match parse (Cmd req) with
  | Err pErr => (Err pErr, [])
  | Ok (remoteSrcUrl, options) =>
    if negb (String.prefix "text/" (SrcMimeType req))
    then (Err "unsupported file mime type, only text/* allowed", [])
    else if maxPageSize this <? SrcFsize req
    then (Err "page file length exceeds the limit", [])
    else
      let resultTmpFpath := resultPath req now options in
      let args := cmdParams options ++ [remoteSrcUrl; resultTmpFpath] in
      let convertCmd := exec_Command "wkhtmltoimage" args in
      let started := Started "wkhtmltoimage" args in
      match StderrPipe convertCmd with
      | Err e => (Err ("open exec stderr pipe error, " +:+ e), [])
      | Ok _ =>
        match Start convertCmd with
        | Err e => (Err ("start html2image command error, " +:+ e), [])
        | Ok _ =>
          match ReadStderr convertCmd with
          | Err e =>
            (Err ("read html2image command stderr error, " +:+ e),
             [started; Removed resultTmpFpath])
          | Ok _ =>
            match Wait convertCmd with
            | Err e =>
              (Err ("wait html2image to exit error, " +:+ e),
               [started; Waited; Removed resultTmpFpath])
            | Ok _ =>
              if (match Stat convertCmd with
                  | Err _ => true
                  | Ok size => size =? 0
                  end)
              then (Err "html2image with no valid output result",
                    [started; Waited; Removed resultTmpFpath])
              else (Ok (resultTmpFpath, RESULT_TYPE_OCTECT_FILE,
                        if String.eqb (Format options) "png" then "image/png"
                        else "image/jpeg"),
                    [started; Waited])
            end
          end
        end
      end
  end.

End Html2Image.

End html2image.

(** ** Concrete collaborators for the converters

    [GetParam] gives the text between [/key/] and the next [/]; the
    decoder is the identity; the converter fails to start for one source,
    writes nothing for another, and works for the rest. *)

Module DemoHtml.

Definition segment (key cmd : string) : string :=
  let mark := "/" +:+ key +:+ "/" in
  match String.index 0 mark cmd with
  | None => EmptyString
  | Some i =>
    let from := (i + String.length mark)%nat in
    let rest := String.substring from (String.length cmd - from) cmd in
    match String.index 0 "/" rest with
    | None => rest
    | Some j => String.substring 0 j rest
    end
  end.

Definition digit (c : ascii) : option Z :=
  let n := Z.of_N (N_of_ascii c) in
  if (48 <=? n) && (n <=? 57) then Some (n - 48) else None.

Fixpoint decimal (acc : Z) (s : string) : Z :=
  match s with
  | EmptyString => acc
  | String c rest =>
    match digit c with
    | Some d => decimal (10 * acc + d) rest
    | None => 0
    end
  end.

Definition collaborators : Collaborators :=
  {| World := Demo.Store;
     regexp_MatchString := fun _ cmd => String.prefix "html2" cmd;
     GetParamDecoded := fun cmd _ key => Ok (segment key cmd);
     GetParam := fun cmd _ key => segment key cmd;
     ParseInt := fun s => Ok (decimal 0 s);
     http_Get := @http_Get Demo.standard;
     zip_NewReader := Demo.archive;
     Gbk2Utf8 := Demo.gbk2utf8;
     policy_Token := Demo.token;
     fio_Put := Demo.storePut Demo.etag;
     rio_Put := fun _ uptoken key data _ => Demo.storePut Demo.etag uptoken key data |}.

Definition working : Process :=
  {| StderrPipe := Ok tt; Start := Ok tt; ReadStderr := Ok EmptyString;
     Wait := Ok tt; Stat := Ok 4096 |}.

Definition converter (name : string) (args : list string) : Process :=
  if existsb (String.eqb "down.example") args
  then {| StderrPipe := Ok tt; Start := Err "executable file not found";
          ReadStderr := Ok EmptyString; Wait := Ok tt; Stat := Err "no such file" |}
  else if existsb (String.eqb "blank.example") args
  then {| StderrPipe := Ok tt; Start := Ok tt; ReadStderr := Ok "warning";
          Wait := Ok tt; Stat := Ok 0 |}
  else working.

Definition shell : Shell :=
  {| Atoi := decimal 0;
     Md5Hex := fun _ => "0cc175b9c0f1b6a831c399e269772661";
     TempDir := "/tmp";
     filepath_Join := fun dir name => dir +:+ "/" +:+ name;
     exec_Command := converter |}.

Definition page (cmd : string) : UfopRequest :=
  {| Cmd := cmd; SrcUrl := "http://src/page.html"; SrcMimeType := "text/html";
     SrcFsize := 2048 |}.

Definition pdfer : html2pdf.Html2Pdfer :=
  {| html2pdf.maxPageSize := 10485760; html2pdf.maxCopies := 10 |}.

Definition imager : html2image.Html2Imager := {| html2image.maxPageSize := 10485760 |}.

End DemoHtml.

(** * Properties *)

(** The cases of one move of the driver, from [Hd : drive this s = Some s']. *)
Ltac drive_cases Hd :=
  unfold drive in Hd;
  repeat match type of Hd with
  | context [match ?x with _ => _ end] => destruct x eqn:?
  end;
  try discriminate Hd;
  injection Hd as <-;
  cbn [setDriver setWg driver uploadWg Files rioSettings world calls] in *;
  repeat match goal with
  | E : uploadWg ?s = _ |- _ => rewrite ?E in *; clear E
  | E : driver ?s = _ |- _ => rewrite ?E in *; clear E
  end.

Section Interleaving.

Context `{Collaborators}.
Variable this : Unzipper.

Implicit Types (s : State) (t : Task) (g : Goroutine) (fr : Frame).

(** ** Lists of started closures, up to their order *)

Lemma insert_delete_Permutation {A} (l : list A) (i : nat) (x y : A) :
  l !! i = Some x -> <[i := y]> l ≡ₚ y :: delete i l.
Proof.
  revert i. induction l as [|a l IH]; intros [|i] Hi; simplify_eq/=; auto.
  rewrite (IH i Hi). apply Permutation_swap.
Qed.

(** ** What one move of a closure does *)

Lemma advance_inv i s s' :
  advance i s = Some s' ->
  driver s' = driver s /\ rioSettings s' = rioSettings s /\
  ((exists t others,
      uploadWg s ≡ₚ Uploading t :: others /\
      uploadWg s' ≡ₚ
        Recording (record (unzipFile t) (put (rioSettings s) t (world s)).2.1) :: others /\
      Files s' = Files s /\
      world s' = (put (rioSettings s) t (world s)).2.2 /\
      calls s' = calls s ++ [(put (rioSettings s) t (world s)).1])
   \/
   (exists unzipFile,
      uploadWg s ≡ₚ Recording unzipFile :: uploadWg s' /\
      Files s' = Files s ++ [unzipFile] /\
      world s' = world s /\ calls s' = calls s)).
Proof.
  unfold advance. destruct (uploadWg s !! i) as [[t|f]|] eqn:Hi; [| |done].
  - destruct (put (rioSettings s) t (world s)) as [call [r w]] eqn:Hput.
    intros [= <-]; simpl. do 2 (split; [done|]). left.
    exists t, (delete i (uploadWg s)). rewrite Hput; simpl. split_and!; try done.
    + by apply delete_Permutation.
    + by eapply insert_delete_Permutation.
  - intros [= <-]; simpl. do 2 (split; [done|]). right.
    exists f. split_and!; try done. by apply delete_Permutation.
Qed.

Lemma drive_rioSettings s s' : drive this s = Some s' -> rioSettings s' = rioSettings s.
Proof. intros Hd. drive_cases Hd; done. Qed.

(** ** The scheduler follows the interleaving *)

Lemma sched_step s s' : sched this s = Some s' -> step this s s'.
Proof.
  unfold sched. destruct (uploadWg s); intros Hs.
  - by apply step_drive.
  - by apply (step_advance _ _ _ 0%nat).
Qed.

Lemma run_steps fuel s : rtc (step this) s (run this fuel s).
Proof.
  revert s. induction fuel as [|fuel IH]; intros s; simpl; [done|].
  destruct (sched this s) as [s'|] eqn:Hs; [|done].
  eapply rtc_l; [by apply sched_step|apply IH].
Qed.

Lemma schedDriverFirst_step s s' : schedDriverFirst this s = Some s' -> step this s s'.
Proof.
  unfold schedDriverFirst. intros Hs.
  destruct (drive this s) as [s1|] eqn:Hd.
  - apply step_drive. destruct (driver s); congruence.
  - apply (step_advance _ _ _ 0%nat). by destruct (driver s).
Qed.

Lemma runDriverFirst_steps fuel s : rtc (step this) s (runDriverFirst this fuel s).
Proof.
  revert s. induction fuel as [|fuel IH]; intros s; simpl; [done|].
  destruct (schedDriverFirst this s) as [s'|] eqn:Hs; [|done].
  eapply rtc_l; [by apply schedDriverFirst_step|apply IH].
Qed.

(** ** Every move uses up budget *)

Lemma sum_budget_Permutation (l k : list Goroutine) :
  l ≡ₚ k -> sum_list_with goroutineBudget l = sum_list_with goroutineBudget k.
Proof. induction 1; simpl; lia. Qed.

Lemma step_budget s s' : step this s s' -> (budget s' < budget s)%nat.
Proof.
  intros [Hd|i Ha]; unfold budget.
  - drive_cases Hd; rewrite ?sum_list_with_app; simpl; lia.
  - apply advance_inv in Ha as (-> & _ & [(t & others & Hwg & Hwg' & _)|(f & Hwg & _)]).
    + rewrite (sum_budget_Permutation _ _ Hwg), (sum_budget_Permutation _ _ Hwg').
      simpl. lia.
    + rewrite (sum_budget_Permutation _ _ Hwg). simpl. lia.
Qed.

(** A state that is not settled has a move: nothing deadlocks. *)
Lemma sched_progress s : settled s \/ exists s', sched this s = Some s'.
Proof.
  unfold settled, sched, advance, drive.
  destruct (uploadWg s) as [|g wg] eqn:Hwg; simpl.
  - destruct (driver s) as [fr [|zipFile rest]|fr t rest| |r]; eauto.
    destruct (iteration this fr zipFile); [eauto..|].
    case_match; eauto.
  - right. destruct g as [t|f]; [|eauto].
    destruct (put (rioSettings s) t (world s)) as [call [r w]]. eauto.
Qed.

Lemma run_settled fuel s : (budget s <= fuel)%nat -> settled (run this fuel s).
Proof.
  revert s. induction fuel as [|fuel IH]; intros s Hb; simpl.
  - destruct (sched_progress s) as [|[s' Hs]]; [done|].
    apply sched_step, step_budget in Hs. lia.
  - destruct (sched this s) as [s'|] eqn:Hs.
    + apply IH. apply sched_step, step_budget in Hs. lia.
    + destruct (sched_progress s) as [|[s' Hs']]; [done|congruence].
Qed.

(** Whatever has happened so far, the call can go on to return and the
    closures it has started can all finish. *)
Lemma settles s : exists s', rtc (step this) s s' /\ settled s'.
Proof.
  exists (run this (budget s) s). split; [apply run_steps|by apply run_settled].
Qed.

(** Once the call has returned with no closure left, nothing moves. *)
Lemma settled_stuck s s' : settled s -> step this s s' -> False.
Proof.
  intros [[r Hr] Hwg] [Hd|i Ha].
  - unfold drive in Hd. by rewrite Hr in Hd.
  - unfold advance in Ha. by rewrite Hwg in Ha.
Qed.

Lemma settled_rtc s s' : settled s -> rtc (step this) s s' -> s' = s.
Proof.
  intros Hs Hrtc. destruct Hrtc as [|s1 s2 s3 Hstep _]; [done|].
  by destruct (settled_stuck _ _ Hs Hstep).
Qed.

(** The driver never comes back from [Return]. *)
Lemma step_returned s s' r :
  step this s s' -> driver s = Return r -> driver s' = Return r.
Proof.
  intros [Hd|i Ha] Hr.
  - unfold drive in Hd. by rewrite Hr in Hd.
  - apply advance_inv in Ha as (-> & _). done.
Qed.

Lemma invariant (P : State -> Prop) s0 :
  P s0 -> (forall s s', P s -> step this s s' -> P s') ->
  forall s, rtc (step this) s0 s -> P s.
Proof.
  intros H0 Hstep. apply rtc_ind_r; eauto.
Qed.

(** A report is returned with nothing left in [uploadWg]. *)

Lemma advance_idle i s : uploadWg s = [] -> advance i s = None.
Proof. intros Hwg. unfold advance. by rewrite Hwg. Qed.

Lemma joinedInv_reachable req w s : reachable this req w s -> joinedInv s.
Proof.
  apply invariant.
  - unfold enter, joinedInv. by destruct (precheck this req) as [[[[b p] o] zs]|e].
  - intros s1 s2 Hinv [Hdrive|i Ha]; unfold joinedInv in *.
    + drive_cases Hdrive; done.
    + pose proof Ha as (Hdr & _)%advance_inv. rewrite Hdr.
      destruct (driver s1) as [| | |[files|e]]; try done.
      destruct Hinv as [_ Hwg]. by rewrite (advance_idle _ _ Hwg) in Ha.
Qed.

End Interleaving.

(** ** The checks before the loop *)

Section Prechecks.

Context `{Collaborators}.
Variable this : Unzipper.

Lemma checkFileSize_Ok zipFiles u :
  checkFileSize this zipFiles = Ok u ->
  Forall (fun zipFile => UncompressedSize64 zipFile <= maxFileLength this) zipFiles.
Proof.
  induction zipFiles as [|zipFile rest IH]; simpl; [constructor|].
  destruct (Z.ltb_spec (maxFileLength this) (UncompressedSize64 zipFile)); [done|].
  constructor; auto.
Qed.

Lemma checkFileSize_Err zipFiles :
  Exists (fun zipFile => maxFileLength this < UncompressedSize64 zipFile) zipFiles ->
  checkFileSize this zipFiles = Err "zip file length exceeds the limit".
Proof.
  induction 1 as [zipFile rest Hbig|zipFile rest _ IH]; simpl.
  - destruct (Z.ltb_spec (maxFileLength this) (UncompressedSize64 zipFile)); [done|lia].
  - by destruct (_ <? _).
Qed.

Lemma precheck_Ok req bucket prefix overwrite zipFiles :
  precheck this req = Ok (bucket, prefix, overwrite, zipFiles) ->
  readZip this req = Ok (bucket, prefix, overwrite, zipFiles) /\
  Z.of_nat (length zipFiles) <= maxFileCount this /\
  Forall (fun zipFile => UncompressedSize64 zipFile <= maxFileLength this) zipFiles.
Proof.
  unfold precheck. destruct (readZip this req) as [[[[b p] o] zs]|e]; simpl; [|done].
  destruct (Z.ltb_spec (maxFileCount this) (Z.of_nat (length zs))); [done|].
  destruct (checkFileSize this zs) as [u|e] eqn:Hsize; simpl; [|done].
  intros [= -> -> -> ->]. eauto using checkFileSize_Ok.
Qed.

(** A call that the checks refuse has returned before anything started,
    and nothing happens afterwards. *)
Lemma refused req w e s :
  precheck this req = Err e ->
  reachable this req w s ->
  s = {| driver := Return (Err e); uploadWg := []; Files := [];
         rioSettings := None; world := w; calls := [] |}.
Proof.
  unfold reachable, enter. intros -> Hs.
  apply settled_rtc in Hs; [done|]. split; simpl; eauto.
Qed.

(** C9. An archive with more entries than the configured maximum is
    refused: the call returns the error, no closure is started, no put is
    issued, no outcome is recorded, and the store is as it was. *)
Theorem too_many_entries_fatal req w bucket prefix overwrite zipFiles s :
  readZip this req = Ok (bucket, prefix, overwrite, zipFiles) ->
  maxFileCount this < Z.of_nat (length zipFiles) ->
  reachable this req w s ->
  returned s = Some (Err "zip files count exceeds the limit") /\
  calls s = [] /\ Files s = [] /\ uploadWg s = [] /\ world s = w.
Proof.
  intros Hzip Hcount Hs.
  assert (precheck this req = Err "zip files count exceeds the limit") as Hpre.
  { unfold precheck. rewrite Hzip; simpl.
    by destruct (Z.ltb_spec (maxFileCount this) (Z.of_nat (length zipFiles))); [|lia]. }
  by rewrite (refused _ _ _ _ Hpre Hs).
Qed.

(** C3. An archive with an entry whose declared size is above the
    configured limit is refused, wherever that entry stands: the call
    returns an error before the loop over the entries, so nothing is
    extracted, no closure is started and no put is issued. *)
Theorem oversized_entry_fatal req w bucket prefix overwrite zipFiles s :
  readZip this req = Ok (bucket, prefix, overwrite, zipFiles) ->
  Exists (fun zipFile => maxFileLength this < UncompressedSize64 zipFile) zipFiles ->
  reachable this req w s ->
  s = enter this req w /\
  (returned s = Some (Err "zip file length exceeds the limit") \/
   returned s = Some (Err "zip files count exceeds the limit")) /\
  calls s = [] /\ Files s = [] /\ uploadWg s = [] /\ world s = w.
Proof.
  intros Hzip Hbig Hs.
  assert (exists e, precheck this req = Err e /\
            (e = "zip file length exceeds the limit" \/
             e = "zip files count exceeds the limit")) as (e & Hpre & He).
  { unfold precheck. rewrite Hzip; simpl.
    destruct (_ <? _); [eauto|]. rewrite (checkFileSize_Err _ Hbig); simpl. eauto. }
  rewrite (refused _ _ _ _ Hpre Hs). unfold enter. rewrite Hpre. simpl.
  split_and!; try done. destruct He as [-> | ->]; auto.
Qed.

End Prechecks.

(** ** The loop over the entries *)

Section Loop.

Context `{Collaborators}.
Variable this : Unzipper.
Variables (b p : string) (o : bool) (zipFiles : list ZipFile).

Implicit Types (s : State) (t : Task) (g : Goroutine) (fr : Frame).

Lemma readEntry_Ok zipFile data :
  readEntry zipFile = Ok data <-> Open zipFile = Ok (Ok data).
Proof.
  unfold readEntry. destruct (Open zipFile) as [[data'|e]|e]; simpl; naive_solver.
Qed.

(** What an iteration that reaches the [go] statement has done. *)
Lemma iteration_Go fr zipFile t fr' :
  frameOf b p o fr ->
  iteration this fr zipFile = IterGo t fr' ->
  exists decodedName data,
    IsDir zipFile = false /\ decodeName (Name zipFile) = Ok decodedName /\
    Open zipFile = Ok (Ok data) /\
    t = taskOf this b p o zipFile decodedName data /\
    frameOf b p o fr' /\
    uploadCounter fr' = wrap_int (uploadCounter fr + 1).
Proof.
  destruct fr as [b' p' o' pol c]. intros (Hb & Hp & Ho & Hpol).
  simpl in *; subst b' p' o'. unfold iteration; simpl.
  destruct (decodeName (Name zipFile)) as [n|e] eqn:Hn; [|done].
  destruct (IsDir zipFile) eqn:Hdir; [done|].
  destruct (readEntry zipFile) as [data|e] eqn:Hdata; [|done].
  intros [= <- <-]. exists n, data. apply readEntry_Ok in Hdata.
  split_and!; try done.
  - unfold taskOf. destruct o; [done|]. by rewrite Hpol.
  - unfold frameOf; simpl. split_and!; try done. intros ->. auto.
Qed.

Lemma iteration_Continue fr zipFile :
  iteration this fr zipFile = IterContinue ->
  IsDir zipFile = true /\ isOk (decodeName (Name zipFile)) = true.
Proof.
  unfold iteration.
  destruct (decodeName (Name zipFile)) as [n|e]; [|done].
  destruct (IsDir zipFile); [done|].
  by destruct (readEntry zipFile).
Qed.

Lemma iteration_Return fr zipFile e :
  iteration this fr zipFile = IterReturn e ->
  decodeName (Name zipFile) = Err e \/
  (IsDir zipFile = false /\ readEntry zipFile = Err e).
Proof.
  unfold iteration.
  destruct (decodeName (Name zipFile)) as [n|e']; [|naive_solver].
  destruct (IsDir zipFile); [done|].
  destruct (readEntry zipFile); naive_solver.
Qed.

(** *** Provenance *)

Lemma provenance_enter req w :
  precheck this req = Ok (b, p, o, zipFiles) ->
  provenance this b p o zipFiles (enter this req w).
Proof.
  intros Hpre. unfold enter. rewrite Hpre.
  split_and!; simpl; done.
Qed.

Lemma provenance_step s s' :
  provenance this b p o zipFiles s -> step this s s' ->
  provenance this b p o zipFiles s'.
Proof.
  intros (Hd & Hwg & Hf & Hc & Hrio) [Hdrive|i Ha]; unfold provenance.
  - rewrite (drive_rioSettings _ _ _ Hdrive).
    drive_cases Hdrive; simpl in *; destruct_and?; split_and!; simpl; try done;
      try set_solver;
      match goal with
      | Hfr : frameOf _ _ _ ?fr, E : iteration _ ?fr ?z = IterGo _ _ |- _ =>
        apply (iteration_Go _ _ _ _ Hfr) in E
          as (n & data & ? & ? & ? & -> & ? & ?);
        assert (fromEntry this b p o zipFiles (taskOf this b p o z n data))
          by (exists z, n, data; split_and!; try done; set_solver)
      end; try done.
    apply Forall_app; split; [done|]. by constructor.
  - apply advance_inv in Ha
      as (-> & -> & [(t & others & Hs & Hs' & -> & _ & ->)|(f & Hs & -> & _ & ->)]).
    + rewrite Hs in Hwg. apply Forall_cons in Hwg as [Ht Hothers].
      rewrite Hs', Hrio. split_and!; try done.
      * constructor; [|done]. by exists t, (world s).
      * apply Forall_app; split; [done|]. constructor; [|done]. by exists t, (world s).
    + rewrite Hs in Hwg. apply Forall_cons in Hwg as [Ht Hothers].
      split_and!; try done. apply Forall_app; split; [done|]. by constructor.
Qed.

Lemma provenance_reachable req w s :
  precheck this req = Ok (b, p, o, zipFiles) ->
  reachable this req w s ->
  provenance this b p o zipFiles s.
Proof.
  intros Hpre. apply invariant; [by apply provenance_enter|].
  apply provenance_step.
Qed.

(** *** Keys *)

Lemma record_Key unzipFile' r : Key (record unzipFile' r) = Key unzipFile'.
Proof. by destruct r. Qed.

Lemma advance_keysHeld i s s' : advance i s = Some s' -> keysHeld s' ≡ₚ keysHeld s.
Proof.
  intros Ha. unfold keysHeld. apply advance_inv in Ha
    as (_ & _ & [(t & others & Hs & Hs' & -> & _)|(f & Hs & -> & _)]).
  - rewrite Hs, Hs'. simpl. by rewrite record_Key.
  - rewrite Hs, map_app. simpl. rewrite <- List.app_assoc. simpl. reflexivity.
Qed.

Lemma keysInv_enter req w :
  precheck this req = Ok (b, p, o, zipFiles) -> keysInv p zipFiles (enter this req w).
Proof. intros Hpre. unfold enter. rewrite Hpre. unfold keysInv, keysHeld. simpl. reflexivity. Qed.

Lemma keysInv_step s s' :
  provenance this b p o zipFiles s ->
  keysInv p zipFiles s -> step this s s' -> keysInv p zipFiles s'.
Proof.
  intros (Hd & _) Hk [Hdrive|i Ha].
  - unfold keysInv, keysHeld in *.
    drive_cases Hdrive; simpl in *; destruct_and?;
      rewrite ?app_nil_r in *; try done;
      try match goal with
      | Hfr : frameOf _ _ _ ?fr, E : iteration _ ?fr ?z = IterGo _ _ |- _ =>
        apply (iteration_Go _ _ _ _ Hfr) in E
          as (n & data & Hdir & Hn & ? & -> & ? & ?);
        unfold expectedKeys, targetKey in Hk; simpl in Hk;
        rewrite Hdir, Hn in Hk; simpl in Hk
      | E : iteration _ _ _ = IterContinue |- _ =>
        apply iteration_Continue in E as [Hdir _];
        unfold expectedKeys, targetKey in Hk; simpl in Hk;
        rewrite Hdir in Hk; simpl in Hk
      end; try done.
    + rewrite <- Hk, map_app, <- !List.app_assoc. done.
    + rewrite <- Hk, <- !List.app_assoc. done.
  - pose proof (advance_keysHeld _ _ _ Ha) as Hheld.
    apply advance_inv in Ha as (Hdr & _). unfold keysInv in *. rewrite Hdr.
    destruct (driver s) as [fr rest|fr t rest| |[files|e]]; rewrite ?Hheld; done.
Qed.

(** *** Counting *)

Lemma advance_launched i s s' :
  advance i s = Some s' ->
  launched s' = launched s /\ (length (uploadWg s') <= length (uploadWg s))%nat.
Proof.
  intros Ha. unfold launched. apply advance_inv in Ha
    as (_ & _ & [(t & others & Hs & Hs' & -> & _)|(f & Hs & -> & _)]).
  - apply Permutation_length in Hs, Hs'. simpl in *. lia.
  - apply Permutation_length in Hs. rewrite length_app. simpl in *. lia.
Qed.

Lemma wrap_int_small z : - 2 ^ 63 <= z <= max_int -> wrap_int z = z.
Proof. unfold wrap_int, max_int. intros Hz. rewrite Z.mod_small; lia. Qed.

Lemma countInv_enter req w :
  maxFileCount this <= max_int ->
  precheck this req = Ok (b, p, o, zipFiles) -> countInv (enter this req w).
Proof.
  intros Hmax Hpre. unfold enter. rewrite Hpre.
  apply precheck_Ok in Hpre as (_ & Hcount & _).
  unfold countInv, launched, MAX_UPLOAD_WORKERS; simpl. split_and!; try done; lia.
Qed.

Lemma countInv_step s s' :
  provenance this b p o zipFiles s -> countInv s -> step this s s' -> countInv s'.
Proof.
  intros (Hd & _) [Hwg Hc] [Hdrive|i Ha].
  - unfold countInv, launched, MAX_UPLOAD_WORKERS in *.
    drive_cases Hdrive; simpl in *; destruct_and?;
      try match goal with
      | Hfr : frameOf _ _ _ ?fr, E : iteration _ ?fr ?z = IterGo _ _ |- _ =>
        apply (iteration_Go _ _ _ _ Hfr) in E
          as (n & data & _ & _ & _ & -> & _ & Hcount);
        rewrite wrap_int_small in Hcount by (unfold max_int in *; lia)
      end;
      repeat match goal with
      | E : (_ =? _) = true |- _ => apply Z.eqb_eq in E
      | E : (_ =? _) = false |- _ => apply Z.eqb_neq in E
      end;
      unfold MAX_UPLOAD_WORKERS in *;
      rewrite ?length_app in *; simpl in *;
      repeat match goal with
      | E : context [Z.rem ?a 100] |- _ =>
        rewrite (Z.rem_mod_nonneg a 100) in E by lia
      | |- context [Z.rem ?a 100] => rewrite (Z.rem_mod_nonneg a 100) by lia
      end;
      split_and!; try done; try lia;
      rewrite Hcount in *; Z.div_mod_to_equations; lia.
  - destruct (advance_launched _ _ _ Ha) as [Hl Hlen].
    apply advance_inv in Ha as (Hdr & _). unfold countInv in *. rewrite Hdr.
    split; [lia|].
    destruct (driver s) as [fr rest|fr t rest| |r]; try done; rewrite Hl; lia.
Qed.

(** *** Entries that extract, and names that do not decode *)

Lemma cleanInv_step s s' : cleanInv s -> step this s s' -> cleanInv s'.
Proof.
  intros Hc [Hdrive|i Ha].
  - unfold cleanInv in *.
    drive_cases Hdrive; try done; try (by eapply Forall_inv_tail).
    apply Forall_inv in Hc as [Hname Hdata].
    match goal with
    | E : iteration _ _ _ = IterReturn _ |- _ =>
      apply iteration_Return in E as [Hfail|[Hdir Hfail]]
    end.
    + by rewrite Hfail in Hname.
    + specialize (Hdata Hdir). by rewrite Hfail in Hdata.
  - apply advance_inv in Ha as (Hdr & _). unfold cleanInv. by rewrite Hdr.
Qed.

Lemma iteration_extracts fr zipFile :
  (exists t fr', iteration this fr zipFile = IterGo t fr') \/
  iteration this fr zipFile = IterContinue ->
  extracts zipFile.
Proof.
  unfold extracts, iteration.
  destruct (decodeName (Name zipFile)) as [n|e];
    destruct (IsDir zipFile); destruct (readEntry zipFile);
    intros [(t & fr' & Hit)|Hit]; try discriminate; by split.
Qed.

Lemma processedInv_step s s' :
  processedInv zipFiles s -> step this s s' -> processedInv zipFiles s'.
Proof.
  intros Hp [Hdrive|i Ha].
  - unfold processedInv in *.
    drive_cases Hdrive; try done;
      destruct Hp as (past & Hz & Hpast);
      try match goal with
          | E : iteration _ ?fr ?z = _ |- _ =>
            exists (past ++ [z]); rewrite <- List.app_assoc; split; [exact Hz|];
            apply Forall_app; split; [done|]; constructor; [|done];
            apply (iteration_extracts fr); rewrite E; by eauto
          end.
    by rewrite Hz, app_nil_r.
  - apply advance_inv in Ha as (Hdr & _). unfold processedInv. by rewrite Hdr.
Qed.

Lemma undecodable_decodeName zipFile :
  undecodable zipFile ->
  exists e, Gbk2Utf8 (Name zipFile) = Err e /\
            decodeName (Name zipFile) = Err ("unsupported file name encoding, " +:+ e).
Proof.
  intros [Hvalid Hgbk]. unfold decodeName. rewrite Hvalid; simpl.
  destruct (Gbk2Utf8 (Name zipFile)) as [n|e]; [done|]. by exists e.
Qed.

Lemma doomedInv_step s s' : doomedInv s -> step this s s' -> doomedInv s'.
Proof.
  intros Hc [Hdrive|i Ha].
  - unfold doomedInv in *.
    drive_cases Hdrive; try done;
      try (by apply Exists_nil in Hc);
      apply Exists_cons in Hc as [Hbad|Hrest]; try done;
      apply undecodable_decodeName in Hbad as (e & _ & Hbad);
      match goal with
      | E : iteration _ _ _ = _ |- _ =>
        unfold iteration in E; rewrite Hbad in E; discriminate E
      end.
  - apply advance_inv in Ha as (Hdr & _). unfold doomedInv. by rewrite Hdr.
Qed.

(** *** The invariants hold in every state the call can reach *)

Lemma keysInv_reachable req w s :
  precheck this req = Ok (b, p, o, zipFiles) ->
  reachable this req w s -> keysInv p zipFiles s.
Proof.
  intros Hpre Hs.
  cut (provenance this b p o zipFiles s /\ keysInv p zipFiles s); [by intros []|].
  revert s Hs. apply invariant.
  - split; [by apply provenance_enter|by apply keysInv_enter].
  - intros s s' [Hp Hk] Hstep. split; eauto using provenance_step, keysInv_step.
Qed.

Lemma countInv_reachable req w s :
  maxFileCount this <= max_int ->
  precheck this req = Ok (b, p, o, zipFiles) ->
  reachable this req w s -> countInv s.
Proof.
  intros Hmax Hpre Hs.
  cut (provenance this b p o zipFiles s /\ countInv s); [by intros []|].
  revert s Hs. apply invariant.
  - split; [by apply provenance_enter|by apply countInv_enter].
  - intros s s' [Hp Hk] Hstep. split; eauto using provenance_step, countInv_step.
Qed.

Lemma cleanInv_reachable req w s :
  precheck this req = Ok (b, p, o, zipFiles) ->
  Forall extracts zipFiles ->
  reachable this req w s -> cleanInv s.
Proof.
  intros Hpre Hclean. apply invariant; [|apply cleanInv_step].
  unfold enter. by rewrite Hpre.
Qed.

Lemma doomedInv_reachable req w s :
  precheck this req = Ok (b, p, o, zipFiles) ->
  Exists undecodable zipFiles ->
  reachable this req w s -> doomedInv s.
Proof.
  intros Hpre Hbad. apply invariant; [|apply doomedInv_step].
  unfold enter. by rewrite Hpre.
Qed.

Lemma processedInv_reachable req w s :
  precheck this req = Ok (b, p, o, zipFiles) ->
  reachable this req w s -> processedInv zipFiles s.
Proof.
  intros Hpre. apply invariant; [|apply processedInv_step].
  unfold enter. rewrite Hpre. simpl. by exists [].
Qed.

(** *** Consequences for the report *)

(** A report is returned only when every entry has extracted. *)
Lemma report_extracts req w s files :
  precheck this req = Ok (b, p, o, zipFiles) ->
  reachable this req w s -> returned s = Some (Ok files) ->
  Forall extracts zipFiles.
Proof.
  intros Hpre Hs Hr.
  pose proof (processedInv_reachable _ _ _ Hpre Hs) as Hp.
  unfold processedInv, returned in *.
  destruct (driver s) as [| | |[files'|e]]; by simplify_eq.
Qed.

Lemma expectedKeys_length zs :
  Forall extracts zs -> length (expectedKeys p zs) = length (regular zs).
Proof.
  unfold expectedKeys, regular, targetKey.
  induction 1 as [|zipFile rest [Hname _] _ IH]; [done|].
  rewrite filter_cons.
  destruct (decide (IsDir zipFile = false)) as [Hdir|Hdir]; simpl.
  - rewrite Hdir. destruct (decodeName (Name zipFile)); [|done]. simpl.
    f_equal. apply IH.
  - destruct (IsDir zipFile); [done|congruence].
Qed.

(** A call over entries that all extract returns a report when it returns. *)
Lemma clean_returns_report req w s r :
  precheck this req = Ok (b, p, o, zipFiles) ->
  Forall extracts zipFiles ->
  reachable this req w s -> returned s = Some r ->
  exists files, r = Ok files.
Proof.
  intros Hpre Hclean Hs Hr.
  pose proof (cleanInv_reachable _ _ _ Hpre Hclean Hs) as Hc.
  unfold cleanInv, returned in *.
  destruct (driver s) as [| | |[files|e]]; simplify_eq; eauto. done.
Qed.

(** The keys of a report are the keys of the regular entries. *)
Lemma report_keys_of_entries req w s files :
  precheck this req = Ok (b, p, o, zipFiles) ->
  reachable this req w s -> returned s = Some (Ok files) ->
  map Key files ≡ₚ expectedKeys p zipFiles.
Proof.
  intros Hpre Hs Hr.
  pose proof (keysInv_reachable _ _ _ Hpre Hs) as Hk.
  unfold keysInv, returned in *.
  destruct (driver s) as [| | |[files'|e]]; by simplify_eq.
Qed.

(** The outcomes of a report are the outcomes of closures of the call. *)
Lemma report_outcomes req w s files :
  precheck this req = Ok (b, p, o, zipFiles) ->
  reachable this req w s -> returned s = Some (Ok files) ->
  Forall (outcomeOf this b p o zipFiles) files.
Proof.
  intros Hpre Hs Hr.
  destruct (provenance_reachable _ _ _ Hpre Hs) as (Hd & _).
  unfold returned in Hr.
  destruct (driver s) as [| | |[files'|e]]; by simplify_eq.
Qed.

(** From any state the call reaches, it can go on to return. *)
Lemma returns req w s :
  reachable this req w s ->
  exists s' r, rtc (step this) s s' /\ reachable this req w s' /\
               returned s' = Some r /\ uploadWg s' = [].
Proof.
  intros Hs. destruct (settles this s) as (s' & Hrtc & [r Hr] & Hwg).
  exists s', r. split_and!; try done.
  - unfold reachable. by etrans.
  - unfold returned. by rewrite Hr.
Qed.

End Loop.

(** ** The report *)

Section Report.

Context `{Collaborators}.
Variable this : Unzipper.
Variables (b p : string) (o : bool) (zipFiles : list ZipFile).

Lemma expectedKeys_regular zs :
  Forall extracts zs -> Forall2 (keyOfEntry p) (regular zs) (expectedKeys p zs).
Proof.
  unfold expectedKeys, regular, targetKey.
  induction 1 as [|zipFile rest [Hname _] _ IH]; [constructor|].
  rewrite filter_cons.
  destruct (decide (IsDir zipFile = false)) as [Hdir|Hdir]; simpl.
  - rewrite Hdir. destruct (decodeName (Name zipFile)) as [n|e] eqn:Hn; [|done].
    simpl. constructor; [by exists n|apply IH].
  - destruct (IsDir zipFile); [apply IH|congruence].
Qed.

(** What a closure of the call makes of the result of its put. *)
Lemma outcomeOf_cases unzipFile' :
  outcomeOf this b p o zipFiles unzipFile' ->
  exists t w, fromEntry this b p o zipFiles t /\ Key unzipFile' = fileName t /\
    match putResult t w with
    | Err e =>
      Error unzipFile' = "save unzip file to bucket error, " +:+ e /\
      Hash unzipFile' = EmptyString
    | Ok ret => Error unzipFile' = EmptyString /\ Hash unzipFile' = RetHash ret
    end.
Proof.
  intros (t & w & Ht & ->). exists t, w. split; [done|].
  destruct Ht as (zipFile & n & data & _ & _ & _ & _ & ->).
  rewrite record_Key. by destruct (putResult _ w).
Qed.

(** C1. A report that the call returns, in whatever order the uploads
    have finished, has one outcome for each entry that is not a directory,
    and its keys are, as a multiset, the prefix followed by the decoded
    name of each such entry; directories contribute nothing.  When the
    archive passes the checks and every entry extracts, the call does
    return, and what it returns is such a report. *)
Theorem report_keys req w :
  precheck this req = Ok (b, p, o, zipFiles) ->
  Forall extracts zipFiles ->
  (forall s, reachable this req w s ->
     exists s' files, rtc (step this) s s' /\ returned s' = Some (Ok files)) /\
  (forall s r, reachable this req w s -> returned s = Some r ->
     exists files, r = Ok files) /\
  (forall s files, reachable this req w s -> returned s = Some (Ok files) ->
     length files = length (regular zipFiles) /\
     exists keys,
       map Key files ≡ₚ keys /\
       Forall2 (keyOfEntry p) (regular zipFiles) keys).
Proof.
  intros Hpre Hclean. split_and!.
  - intros s Hs. destruct (returns this _ _ _ Hs) as (s' & r & Hrtc & Hs' & Hr & _).
    destruct (clean_returns_report this _ _ _ _ _ _ _ _ Hpre Hclean Hs' Hr)
      as [files ->].
    by exists s', files.
  - intros s r Hs Hr. by eapply clean_returns_report.
  - intros s files Hs Hr.
    pose proof (report_keys_of_entries this _ _ _ _ _ _ _ _ Hpre Hs Hr) as Hkeys.
    pose proof (report_extracts this _ _ _ _ _ _ _ _ Hpre Hs Hr) as Hall.
    split.
    + rewrite <- (expectedKeys_length p _ Hall).
      apply Permutation_length in Hkeys. by rewrite length_map in Hkeys.
    + exists (expectedKeys p zipFiles). split; [done|]. by apply expectedKeys_regular.
Qed.

(** *** The history of the puts *)

Lemma issue_snoc w ts t :
  issue w (ts ++ [t]) =
    ((issue w ts).1 ++
       [{| issuedTask := t;
           issuedCall := (put (Some rputSettings) t (issue w ts).2).1;
           issuedResult := (put (Some rputSettings) t (issue w ts).2).2.1 |}],
     (put (Some rputSettings) t (issue w ts).2).2.2).
Proof.
  revert w. induction ts as [|t' ts IH]; intros w; simpl.
  - by destruct (put _ t w) as [c [r w1]].
  - destruct (put _ t' w) as [c [r w1]]. rewrite IH.
    by destruct (issue w1 ts) as [puts w2].
Qed.

Lemma historyInv_enter req w :
  precheck this req = Ok (b, p, o, zipFiles) ->
  historyInv this b p o zipFiles w (enter this req w).
Proof. intros Hpre. unfold enter. rewrite Hpre. by exists []. Qed.

Lemma historyInv_step w s s' :
  provenance this b p o zipFiles s ->
  historyInv this b p o zipFiles w s -> step this s s' ->
  historyInv this b p o zipFiles w s'.
Proof.
  intros (_ & Hwg & _ & _ & Hrio) (ts & Hts & Hcalls & Hworld & Hout) [Hdrive|i Ha].
  - exists ts.
    drive_cases Hdrive; rewrite ?omap_app; csimpl in *; rewrite ?app_nil_r in *; done.
  - apply advance_inv in Ha
      as (_ & _ & [(t & others & Hs & Hs' & Hf & Hw & Hc)|(f & Hs & Hf & Hw & Hc)]).
    + rewrite Hs in Hwg. apply Forall_cons in Hwg as [Ht _].
      rewrite Hs in Hout. csimpl in Hout.
      exists (ts ++ [t]). rewrite issue_snoc. simpl. rewrite <- Hworld, <- Hrio.
      split_and!.
      * apply Forall_app. split; [done|]. by constructor.
      * rewrite Hc, map_app, Hcalls. done.
      * done.
      * rewrite Hf, Hs', map_app, <- Hout. csimpl.
        rewrite <- Permutation_middle. unfold outcomeOfPut; simpl.
        apply Permutation_cons_append.
    + rewrite Hs in Hout. csimpl in Hout.
      exists ts. split_and!; try congruence.
      rewrite Hf, <- Hout, <- List.app_assoc. done.
Qed.

Lemma historyInv_reachable req w s :
  precheck this req = Ok (b, p, o, zipFiles) ->
  reachable this req w s -> historyInv this b p o zipFiles w s.
Proof.
  intros Hpre Hs.
  cut (provenance this b p o zipFiles s /\ historyInv this b p o zipFiles w s);
    [by intros []|].
  revert s Hs. apply invariant.
  - split; [by apply provenance_enter|by apply historyInv_enter].
  - intros s s' [Hp Hh] Hstep. split; eauto using provenance_step, historyInv_step.
Qed.

(** A property of the outcome of every put of closures of the call holds
    of the outcomes of the puts issued, put by put. *)
Lemma issue_Forall2 (R : UnzipFile -> Put -> Prop) ts :
  (forall t c r, fromEntry this b p o zipFiles t ->
     R (record (unzipFile t) r)
       {| issuedTask := t; issuedCall := c; issuedResult := r |}) ->
  Forall (fromEntry this b p o zipFiles) ts ->
  forall w, Forall2 R (map outcomeOfPut (issue w ts).1) (issue w ts).1.
Proof.
  intros HR. induction 1 as [|t ts Ht _ IH]; intros w; simpl; [constructor|].
  destruct (put _ t w) as [c [r w1]]. specialize (IH w1).
  destruct (issue w1 ts) as [puts w2]. simpl in *. constructor; [|done].
  by apply HR.
Qed.

(** C7. A put that fails is recorded as the error message of its
    outcome and nowhere else: when the archive passes the checks and every
    entry extracts, what the call returns is a report, with one outcome
    for each regular entry, whichever puts have failed and whichever of
    the two puts they were.  The outcomes of the report are those of the
    puts the call has issued, each in the store the puts before it have
    left: an outcome carries the error of its own put when that put
    failed, and the hash it returned when it succeeded. *)
Theorem upload_failure_isolated req w s r :
  precheck this req = Ok (b, p, o, zipFiles) ->
  Forall extracts zipFiles ->
  reachable this req w s -> returned s = Some r ->
  exists files ts ordered,
    r = Ok files /\
    length files = length (regular zipFiles) /\
    Forall (fromEntry this b p o zipFiles) ts /\
    calls s = map issuedCall (issue w ts).1 /\
    world s = (issue w ts).2 /\
    files ≡ₚ ordered /\
    Forall2 (fun unzipFile' pt =>
      Key unzipFile' = fileName (issuedTask pt) /\
      match issuedResult pt with
      | Err e =>
        Error unzipFile' = "save unzip file to bucket error, " +:+ e /\
        Hash unzipFile' = EmptyString
      | Ok ret => Error unzipFile' = EmptyString /\ Hash unzipFile' = RetHash ret
      end) ordered (issue w ts).1.
Proof.
  intros Hpre Hclean Hs Hr.
  destruct (clean_returns_report this _ _ _ _ _ _ _ _ Hpre Hclean Hs Hr)
    as [files ->].
  destruct (historyInv_reachable _ _ _ Hpre Hs) as (ts & Hts & Hcalls & Hworld & Hout).
  pose proof (joinedInv_reachable this _ _ _ Hs) as Hjoin.
  unfold joinedInv, returned in *.
  destruct (driver s) as [| | |[files'|e]] eqn:Hdr; simplify_eq.
  destruct Hjoin as [-> Hwg]. rewrite Hwg in Hout. csimpl in Hout.
  rewrite app_nil_r in Hout.
  exists (Files s), ts, (map outcomeOfPut (issue w ts).1). split_and!; try done.
  - assert (returned s = Some (Ok (Files s))) as Hr
      by (unfold returned; by rewrite Hdr).
    pose proof (report_keys_of_entries this _ _ _ _ _ _ _ _ Hpre Hs Hr) as Hkeys.
    rewrite <- (expectedKeys_length p _ Hclean).
    apply Permutation_length in Hkeys. by rewrite length_map in Hkeys.
  - apply issue_Forall2; [|done].
    intros t c r0 (zipFile & n & data & _ & _ & _ & _ & ->).
    rewrite record_Key. by destruct r0.
Qed.

(** C8, as the code has it.  The outcomes made so far are those of the
    puts issued so far, each in the store the puts before it have left.
    In an outcome the hash and the error are never both set.  The error is
    set exactly when its put failed; when the put succeeded the hash is the
    one the store returned, so it is set exactly when the store returned a
    hash that is not empty. *)
Theorem outcome_hash_or_error req w s :
  precheck this req = Ok (b, p, o, zipFiles) ->
  reachable this req w s ->
  exists ts ordered,
    Forall (fromEntry this b p o zipFiles) ts /\
    calls s = map issuedCall (issue w ts).1 /\
    world s = (issue w ts).2 /\
    Files s ++ omap recording (uploadWg s) ≡ₚ ordered /\
    Forall2 (fun unzipFile' pt =>
      ~ (isSet (Hash unzipFile') /\ isSet (Error unzipFile')) /\
      match issuedResult pt with
      | Err e => isSet (Error unzipFile') /\ ~ isSet (Hash unzipFile')
      | Ok ret =>
        ~ isSet (Error unzipFile') /\ Hash unzipFile' = RetHash ret /\
        (isSet (Hash unzipFile') <-> RetHash ret <> EmptyString)
      end) ordered (issue w ts).1.
Proof.
  intros Hpre Hs.
  destruct (historyInv_reachable _ _ _ Hpre Hs) as (ts & Hts & Hcalls & Hworld & Hout).
  exists ts, (map outcomeOfPut (issue w ts).1). split_and!; try done.
  apply issue_Forall2; [|done].
  intros t c r0 (zipFile & n & data & _ & _ & _ & _ & ->). unfold isSet.
  destruct r0 as [ret|e]; simpl.
  - split; [by intros [_ Hne]|]. split_and!; try done. by intros Hne.
  - split; [by intros [Hne _]|]. split; [done|]. by intros Hne.
Qed.

End Report.

(** ** The choice between the two puts *)

Section Strategy.

Context `{Collaborators}.
Variable this : Unzipper.

Lemma int64_of_uint64_small z : 0 <= z <= max_int -> int64_of_uint64 z = z.
Proof. intros Hz. apply wrap_int_small. unfold max_int in *. lia. Qed.

(** The call that the closure of an entry issues is the expected one. *)
Lemma putCall_selected b p o zipFile decodedName data w :
  let t := taskOf this b p o zipFile decodedName data in
  selected zipFile (uptoken t) (p +:+ decodedName) data (putCall t w).
Proof.
  unfold selected, putCall, put, selectStrategy, rputThreshold, rputSettings; simpl.
  change (100 * 1024 * 1024) with 104857600. change (4 * 1024 * 1024) with 4194304.
  destruct (Z.leb_spec (UncompressedSize64 zipFile) 104857600); simpl.
  - split_and!; [done|lia|done].
  - split_and!; [lia|done|]. intros Hsize. by rewrite int64_of_uint64_small.
Qed.

(** C5. Every put is chosen by the declared size of its entry alone: a
    direct put when the size is at most 100 MiB, the empty entry
    included, and above it a resumable put with chunks of 4 MiB and the
    declared size as length.  This holds of every put that has been
    issued and of the put that any started closure is about to issue. *)
Theorem strategy_by_threshold req w b p o zipFiles s :
  precheck this req = Ok (b, p, o, zipFiles) ->
  reachable this req w s ->
  (forall c, c ∈ calls s ->
     exists zipFile decodedName data,
       zipFile ∈ zipFiles /\ IsDir zipFile = false /\
       decodeName (Name zipFile) = Ok decodedName /\ Open zipFile = Ok (Ok data) /\
       selected zipFile (uptoken (taskOf this b p o zipFile decodedName data))
                (p +:+ decodedName) data c) /\
  (forall i t s', uploadWg s !! i = Some (Uploading t) -> advance i s = Some s' ->
     exists zipFile decodedName data c,
       zipFile ∈ zipFiles /\ IsDir zipFile = false /\
       decodeName (Name zipFile) = Ok decodedName /\ Open zipFile = Ok (Ok data) /\
       t = taskOf this b p o zipFile decodedName data /\
       calls s' = calls s ++ [c] /\
       selected zipFile (uptoken t) (p +:+ decodedName) data c).
Proof.
  intros Hpre Hs.
  destruct (provenance_reachable this b p o zipFiles _ _ _ Hpre Hs)
    as (_ & Hwg & _ & Hc & Hrio).
  split.
  - intros c Hin. rewrite Forall_forall in Hc.
    destruct (Hc c Hin) as (t & w' & (zipFile & n & data & ? & ? & ? & ? & ->) & ->).
    exists zipFile, n, data. split_and!; try done. apply putCall_selected.
  - intros i t s' Hi Ha. rewrite Forall_forall in Hwg.
    destruct (Hwg (Uploading t)) as (zipFile & n & data & ? & ? & ? & ? & ->).
    { by eapply list_elem_of_lookup_2. }
    exists zipFile, n, data, (putCall (taskOf this b p o zipFile n data) (world s)).
    split_and!; try done; [|apply putCall_selected].
    unfold advance in Ha. rewrite Hi, Hrio in Ha. unfold putCall.
    destruct (put _ _ _) as [call [r w']]. by simplify_eq.
Qed.

(** C10. With the per-entry limit left at its default, which is the
    threshold of the resumable put, no resumable put is ever issued: every
    closure that is started holds a file of at most 100 MiB and every put
    is a direct put. *)
Theorem default_limit_always_direct cfg req w s :
  InitConfig (Ok (Ok cfg)) = Ok this ->
  UnzipMaxFileLength cfg = 0 ->
  reachable this req w s ->
  maxFileLength this = rputThreshold /\
  Forall (fun g => forall t, g = Uploading t -> fileSize t <= rputThreshold) (uploadWg s) /\
  Forall (fun c => exists tok key data, c = FioPut tok key data) (calls s).
Proof.
  intros Hcfg Hdefault Hs.
  assert (maxFileLength this = rputThreshold) as Hmax.
  { unfold InitConfig in Hcfg; simpl in Hcfg. injection Hcfg as <-; simpl.
    by rewrite Hdefault. }
  split; [done|].
  destruct (precheck this req) as [[[[b p] o] zipFiles]|e] eqn:Hpre.
  - destruct (provenance_reachable this b p o zipFiles _ _ _ Hpre Hs)
      as (_ & Hwg & _ & Hc & _).
    apply precheck_Ok in Hpre as (_ & _ & Hsize). rewrite Forall_forall in Hsize.
    assert (forall t, fromEntry this b p o zipFiles t -> fileSize t <= rputThreshold)
      as Hsmall.
    { intros t (zipFile & n & data & Hin & _ & _ & _ & ->). simpl.
      rewrite <- Hmax. by apply Hsize. }
    split.
    + eapply Forall_impl; [exact Hwg|]. intros g Hg t ->. by apply Hsmall.
    + eapply Forall_impl; [exact Hc|]. intros c (t & w' & Ht & ->).
      unfold putCall, put. apply Hsmall, Z.leb_le in Ht. rewrite Ht. simpl. eauto.
  - rewrite (refused this _ _ _ _ Hpre Hs). simpl. split; constructor.
Qed.

End Strategy.

(** ** Names that do not decode *)

Section Names.

Context `{Collaborators}.
Variable this : Unzipper.

(** C6. A name that is not UTF-8 is handed to the GBK decoder before the
    entry is looked at, directory or not, and when the decoder fails the
    iteration returns the error.  An archive that holds such a name never
    yields a report: the call returns, and what it returns is an error. *)
Theorem undecodable_name_fatal req w b p o zipFiles :
  readZip this req = Ok (b, p, o, zipFiles) ->
  Exists undecodable zipFiles ->
  (forall fileName, utf8.Valid fileName = false ->
     decodeName fileName = wrapErr "unsupported file name encoding, " (Gbk2Utf8 fileName)) /\
  (forall fr zipFile, undecodable zipFile ->
     exists e, Gbk2Utf8 (Name zipFile) = Err e /\
       iteration this fr zipFile = IterReturn ("unsupported file name encoding, " +:+ e)) /\
  (forall s r, reachable this req w s -> returned s = Some r -> exists e, r = Err e) /\
  (forall s, reachable this req w s ->
     exists s' e, rtc (step this) s s' /\ returned s' = Some (Err e)).
Proof.
  intros Hzip Hbad.
  assert (forall s r, reachable this req w s -> returned s = Some r ->
            exists e, r = Err e) as Herr.
  { intros s r Hs Hr.
    destruct (precheck this req) as [[[[b' p'] o'] zs]|e] eqn:Hpre.
    - pose proof Hpre as (Hzip' & _)%precheck_Ok.
      rewrite Hzip in Hzip'. injection Hzip' as <- <- <- <-.
      pose proof (doomedInv_reachable this _ _ _ _ _ _ _ Hpre Hbad Hs) as Hd.
      unfold doomedInv, returned in *.
      destruct (driver s) as [| | |[files|e]]; simplify_eq; eauto. done.
    - rewrite (refused this _ _ _ _ Hpre Hs) in Hr. simpl in Hr.
      injection Hr as <-. eauto. }
  split_and!; try done.
  - intros fileName Hvalid. unfold decodeName. by rewrite Hvalid.
  - intros fr zipFile Hz.
    destruct (undecodable_decodeName _ Hz) as (e & Hgbk & Hname).
    exists e. split; [done|]. unfold iteration. by rewrite Hname.
  - intros s Hs. destruct (returns this _ _ _ Hs) as (s' & r & Hrtc & Hs' & Hr & _).
    destruct (Herr _ _ Hs' Hr) as [e ->]. by exists s', e.
Qed.

End Names.

(** ** The batches of uploads *)

Section Batches.

Context `{Collaborators}.
Variable this : Unzipper.

(** C4. [uploadCounter] is the number of closures started, the one about
    to start included.  When it comes to a multiple of 100 the driver
    waits in [uploadWg.Wait()], which lets it go on only when no started
    closure is left, and starts the next closure after that.  At no time
    are more than 100 closures started and unfinished. *)
Theorem batch_barrier req w s :
  maxFileCount this <= max_int ->
  reachable this req w s ->
  Z.of_nat (length (uploadWg s)) <= MAX_UPLOAD_WORKERS /\
  (forall fr rest, driver s = Loop fr rest -> uploadCounter fr = launched s) /\
  (forall fr zipFile rest t fr',
     driver s = Loop fr (zipFile :: rest) ->
     iteration this fr zipFile = IterGo t fr' ->
     uploadCounter fr' = launched s + 1 /\
     drive this s =
       Some (if Z.rem (uploadCounter fr') MAX_UPLOAD_WORKERS =? 0
             then setDriver (Barrier fr' t rest) s
             else setDriver (Loop fr' rest) (setWg (uploadWg s ++ [Uploading t]) s))) /\
  (forall fr t rest,
     driver s = Barrier fr t rest ->
     Z.rem (uploadCounter fr) MAX_UPLOAD_WORKERS = 0 /\
     uploadCounter fr = launched s + 1 /\
     (uploadWg s <> [] -> drive this s = None) /\
     (uploadWg s = [] ->
      drive this s = Some (setDriver (Loop fr rest) (setWg [Uploading t] s)))).
Proof.
  intros Hmax Hs.
  destruct (precheck this req) as [[[[b p] o] zipFiles]|e] eqn:Hpre.
  - destruct (countInv_reachable this _ _ _ _ _ _ _ Hmax Hpre Hs) as [Hwg Hc].
    destruct (provenance_reachable this b p o zipFiles _ _ _ Hpre Hs) as (Hd & _).
    split; [done|]. split_and!.
    + intros fr rest Hdr. rewrite Hdr in Hc. by destruct Hc.
    + intros fr zipFile rest t fr' Hdr Hit. rewrite Hdr in Hc, Hd.
      destruct Hc as (Hcount & Hroom & _). destruct Hd as [Hfr _].
      pose proof Hit as (n & data & _ & _ & _ & _ & _ & Hnext)%(iteration_Go _ _ _ _ _ _ _ _ Hfr).
      split.
      * rewrite Hnext, wrap_int_small; [lia|].
        unfold launched, max_int in *. simpl in Hroom. lia.
      * unfold drive. rewrite Hdr, Hit. by destruct (_ =? _).
    + intros fr t rest Hdr. rewrite Hdr in Hc. destruct Hc as (Hcount & _ & Hrem).
      split_and!; try done; unfold drive; rewrite Hdr.
      * by destruct (uploadWg s).
      * by intros ->.
  - rewrite (refused this _ _ _ _ Hpre Hs). simpl.
    unfold MAX_UPLOAD_WORKERS. split_and!; try done.
Qed.

(** C2, as the code has it.  When the content of an entry cannot be
    opened or read, the driver returns the error in that very move,
    without waiting.  The closures started before the last barrier have
    finished, for the barrier waited for them; those started since then,
    at most [uploadCounter mod 100 + 1] of them, are left as they are.
    They are not cancelled either: each can still run to its end, and the
    error that was returned stands. *)
Theorem extraction_failure_returns_at_once req w s fr zipFile rest e :
  maxFileCount this <= max_int ->
  reachable this req w s ->
  driver s = Loop fr (zipFile :: rest) ->
  isOk (decodeName (Name zipFile)) = true ->
  IsDir zipFile = false ->
  readEntry zipFile = Err e ->
  let s' := setDriver (Return (Err e)) s in
  drive this s = Some s' /\
  uploadWg s' = uploadWg s /\
  Z.of_nat (length (uploadWg s')) <= Z.rem (uploadCounter fr) MAX_UPLOAD_WORKERS + 1 /\
  uploadCounter fr = launched s' /\
  (forall s'', rtc (step this) s' s'' -> returned s'' = Some (Err e)) /\
  (exists s'', rtc (step this) s' s'' /\ uploadWg s'' = []).
Proof.
  intros Hmax Hs Hdr Hname Hdir Hread. simpl.
  assert (countInv s) as [_ Hc].
  { destruct (precheck this req) as [[[[b p] o] zipFiles]|e'] eqn:Hpre.
    - by eapply countInv_reachable.
    - rewrite (refused this _ _ _ _ Hpre Hs) in Hdr. discriminate Hdr. }
  rewrite Hdr in Hc. destruct Hc as (Hcount & _ & Hbound).
  split_and!; try done.
  - unfold drive, iteration. rewrite Hdr.
    destruct (decodeName (Name zipFile)); [|done]. by rewrite Hdir, Hread.
  - apply invariant; [done|]. intros s1 s2 Hr Hstep.
    unfold returned in *. destruct (driver s1) as [| | |r] eqn:Hd1; try done.
    by rewrite (step_returned this _ _ _ Hstep Hd1).
  - destruct (settles this (setDriver (Return (Err e)) s)) as (s'' & Hrtc & _ & Hwg).
    by exists s''.
Qed.

End Batches.

(** ** The properties on the sample archives *)

(** Every entry of a concrete archive extracts. *)
Ltac all_extract :=
  repeat (apply List.Forall_cons;
          [split; [vm_compute; reflexivity | intros _; vm_compute; reflexivity]|]);
  apply List.Forall_nil.

Lemma finish_reachable hashOf u url :
  @reachable (Demo.collaborators hashOf) u (Demo.request url) [] (Demo.finish hashOf u url).
Proof. apply run_steps. Defined.

Lemma driverAhead_reachable fuel hashOf u url :
  @reachable (Demo.collaborators hashOf) u (Demo.request url) []
             (Demo.driverAhead fuel hashOf u url).
Proof. apply runDriverFirst_steps. Defined.

(** The archive of [a.txt], the directory [b/] and [b/c.txt], with the
    prefix [out/]. *)
Example abc_report :
  returned (Demo.finish Demo.etag Demo.unzipper "http://src/abc.zip") =
  Some (Ok [ {| Key := "out/a.txt"; Hash := "etag-0123456789"; Error := EmptyString |};
             {| Key := "out/b/c.txt"; Hash := "etag-01234567890123456789";
                Error := EmptyString |} ]).
Proof. vm_compute. reflexivity. Qed.

Lemma report_keys_witness :
  @precheck Demo.standard Demo.unzipper (Demo.request "http://src/abc.zip") =
    Ok ("bkt", "out/", false, Demo.abc) /\
  Forall (@extracts Demo.standard) Demo.abc /\
  exists files keys,
    returned (Demo.finish Demo.etag Demo.unzipper "http://src/abc.zip") = Some (Ok files) /\
    length files = length (regular Demo.abc) /\
    map Key files ≡ₚ keys /\
    Forall2 (@keyOfEntry Demo.standard "out/") (regular Demo.abc) keys.
Proof.
  assert (@precheck Demo.standard Demo.unzipper (Demo.request "http://src/abc.zip") =
            Ok ("bkt", "out/", false, Demo.abc)) as Hpre by (vm_compute; reflexivity).
  assert (Forall (@extracts Demo.standard) Demo.abc) as Hclean by all_extract.
  split; [exact Hpre|]. split; [exact Hclean|].
  destruct (@report_keys Demo.standard Demo.unzipper "bkt" "out/" false Demo.abc
              (Demo.request "http://src/abc.zip") [] Hpre Hclean) as (_ & _ & Hreport).
  destruct (Hreport (Demo.finish Demo.etag Demo.unzipper "http://src/abc.zip") _
              (finish_reachable _ _ _) abc_report)
    as (Hlen & keys & Hperm & Hkeys).
  eexists _, keys.
  split_and!; [exact abc_report|exact Hlen|exact Hperm|exact Hkeys].
Defined.

(** A name in GBK is stored under its UTF-8 form. *)
Example gbk_report :
  returned (Demo.finish Demo.etag Demo.unzipper "http://src/gbk.zip") =
  Some (Ok [ {| Key := "out/" +:+ Demo.utf8Name; Hash := "etag-x"; Error := EmptyString |} ]).
Proof. vm_compute. reflexivity. Qed.

(** Two entries of the same name: the store refuses the second put. *)
Example twins_report :
  returned (Demo.finish Demo.etag Demo.unzipper "http://src/twins.zip") =
  Some (Ok [ {| Key := "out/a.txt"; Hash := "etag-x"; Error := EmptyString |};
             {| Key := "out/a.txt"; Hash := EmptyString;
                Error := "save unzip file to bucket error, file exists" |} ]).
Proof. vm_compute. reflexivity. Qed.

Lemma upload_failure_isolated_witness :
  let archive := [Demo.file "a.txt" 1 "x"; Demo.file "a.txt" 1 "y"] in
  let s := Demo.finish Demo.etag Demo.unzipper "http://src/twins.zip" in
  exists files ts ordered,
    Ok [ {| Key := "out/a.txt"; Hash := "etag-x"; Error := EmptyString |};
         {| Key := "out/a.txt"; Hash := EmptyString;
            Error := "save unzip file to bucket error, file exists" |} ] = Ok files /\
    length files = length (regular archive) /\
    Forall (@fromEntry Demo.standard Demo.unzipper "bkt" "out/" false archive) ts /\
    calls s = map issuedCall (@issue Demo.standard [] ts).1 /\
    world s = (@issue Demo.standard [] ts).2 /\
    files ≡ₚ ordered /\
    Forall2 (fun unzipFile' pt =>
      Key unzipFile' = fileName (issuedTask pt) /\
      match issuedResult pt with
      | Err e =>
        Error unzipFile' = "save unzip file to bucket error, " +:+ e /\
        Hash unzipFile' = EmptyString
      | Ok ret => Error unzipFile' = EmptyString /\ Hash unzipFile' = RetHash ret
      end) ordered (@issue Demo.standard [] ts).1.
Proof.
  intros archive s.
  apply (@upload_failure_isolated Demo.standard Demo.unzipper "bkt" "out/" false
           archive (Demo.request "http://src/twins.zip") [] s).
  - vm_compute. reflexivity.
  - all_extract.
  - apply finish_reachable.
  - exact twins_report.
Defined.

(** C8 fails when a put succeeds and the store returns no hash: the
    outcome then has neither a hash nor an error. *)
Lemma outcome_neither_set_counterexample :
  let s := Demo.finish (fun _ => EmptyString) Demo.unzipper "http://src/abc.zip" in
  @reachable Demo.hashless Demo.unzipper (Demo.request "http://src/abc.zip") [] s /\
  returned s =
    Some (Ok [ {| Key := "out/a.txt"; Hash := EmptyString; Error := EmptyString |};
               {| Key := "out/b/c.txt"; Hash := EmptyString; Error := EmptyString |} ]) /\
  exists unzipFile', unzipFile' ∈ Files s /\
    ~ isSet (Hash unzipFile') /\ ~ isSet (Error unzipFile').
Proof.
  split; [apply finish_reachable|]. split; [vm_compute; reflexivity|].
  exists {| Key := "out/a.txt"; Hash := EmptyString; Error := EmptyString |}.
  split; [vm_compute; left|]. split; intros Hset; by apply Hset.
Qed.

Lemma outcome_hash_or_error_witness :
  let archive := [Demo.file "a.txt" 1 "x"; Demo.file "a.txt" 1 "y"] in
  let s := Demo.finish Demo.etag Demo.unzipper "http://src/twins.zip" in
  exists ts ordered,
    Forall (@fromEntry Demo.standard Demo.unzipper "bkt" "out/" false archive) ts /\
    calls s = map issuedCall (@issue Demo.standard [] ts).1 /\
    world s = (@issue Demo.standard [] ts).2 /\
    Files s ++ omap recording (uploadWg s) ≡ₚ ordered /\
    Forall2 (fun unzipFile' pt =>
      ~ (isSet (Hash unzipFile') /\ isSet (Error unzipFile')) /\
      match issuedResult pt with
      | Err e => isSet (Error unzipFile') /\ ~ isSet (Hash unzipFile')
      | Ok ret =>
        ~ isSet (Error unzipFile') /\ Hash unzipFile' = RetHash ret /\
        (isSet (Hash unzipFile') <-> RetHash ret <> EmptyString)
      end) ordered (@issue Demo.standard [] ts).1.
Proof.
  intros archive s.
  apply (@outcome_hash_or_error Demo.standard Demo.unzipper "bkt" "out/" false
           archive (Demo.request "http://src/twins.zip") [] s).
  - vm_compute. reflexivity.
  - apply finish_reachable.
Defined.

(** An empty file and a file one byte above the threshold, with limits
    that admit it. *)
Lemma strategy_by_threshold_witness :
  let archive := [Demo.file "empty" 0 EmptyString; Demo.file "big.bin" 104857601 "0"] in
  let c := RioPut (Some rputSettings) "ak:bkt" "out/big.bin" "0" 104857601 in
  c ∈ calls (Demo.finish Demo.etag Demo.roomy "http://src/empty-big.zip") /\
  exists zipFile decodedName data,
    zipFile ∈ archive /\ IsDir zipFile = false /\
    @decodeName Demo.standard (Name zipFile) = Ok decodedName /\
    Open zipFile = Ok (Ok data) /\
    selected zipFile
      (uptoken (@taskOf Demo.standard Demo.roomy "bkt" "out/" false zipFile decodedName data))
      ("out/" +:+ decodedName) data c.
Proof.
  intros archive c.
  assert (c ∈ calls (Demo.finish Demo.etag Demo.roomy "http://src/empty-big.zip"))
    as Hin by (vm_compute; right; left).
  split; [exact Hin|].
  destruct (@strategy_by_threshold Demo.standard Demo.roomy
              (Demo.request "http://src/empty-big.zip") [] "bkt" "out/" false archive
              (Demo.finish Demo.etag Demo.roomy "http://src/empty-big.zip"))
    as [Hcalls _].
  - vm_compute. reflexivity.
  - apply finish_reachable.
  - exact (Hcalls c Hin).
Defined.

Example empty_big_calls :
  calls (Demo.finish Demo.etag Demo.roomy "http://src/empty-big.zip") =
  [ FioPut "ak:bkt" "out/empty" EmptyString;
    RioPut (Some {| ChunkSize := 4194304; Workers := 1 |}) "ak:bkt" "out/big.bin" "0"
           104857601 ].
Proof. vm_compute. reflexivity. Qed.

(** The configuration file that sets the keys only. *)
Lemma default_limit_always_direct_witness :
  InitConfig (Ok (Ok Demo.defaults)) = Ok Demo.unzipper /\
  UnzipMaxFileLength Demo.defaults = 0 /\
  maxFileLength Demo.unzipper = rputThreshold /\
  Forall (fun g => forall t, g = Uploading t -> fileSize t <= rputThreshold)
         (uploadWg (Demo.driverAhead 5 Demo.etag Demo.unzipper "http://src/abc.zip")) /\
  Forall (fun c => exists tok key data, c = FioPut tok key data)
         (calls (Demo.driverAhead 5 Demo.etag Demo.unzipper "http://src/abc.zip")).
Proof.
  split; [reflexivity|]. split; [reflexivity|].
  apply (@default_limit_always_direct Demo.standard Demo.unzipper Demo.defaults
           (Demo.request "http://src/abc.zip") []).
  - reflexivity.
  - reflexivity.
  - apply driverAhead_reachable.
Defined.

(** A directory whose name is neither UTF-8 nor GBK, behind a good file. *)
Lemma undecodable_name_fatal_witness :
  let archive := [Demo.file "a.txt" 1 "x"; Demo.dir Demo.brokenName] in
  Exists (@undecodable Demo.standard) archive /\
  IsDir (Demo.dir Demo.brokenName) = true /\
  exists e, returned (Demo.finish Demo.etag Demo.unzipper "http://src/broken-dir.zip") =
            Some (Err e).
Proof.
  intros archive.
  assert (Exists (@undecodable Demo.standard) archive) as Hbad.
  { apply Exists_cons_tl, Exists_cons_hd. split; vm_compute; reflexivity. }
  split; [exact Hbad|]. split; [reflexivity|].
  destruct (@undecodable_name_fatal Demo.standard Demo.unzipper
              (Demo.request "http://src/broken-dir.zip") [] "bkt" "out/" false archive)
    as (_ & _ & Herr & _).
  - vm_compute. reflexivity.
  - exact Hbad.
  - destruct (Herr (Demo.finish Demo.etag Demo.unzipper "http://src/broken-dir.zip")
                (Err "unsupported file name encoding, illegal byte sequence"))
      as [e He].
    + apply finish_reachable.
    + vm_compute. reflexivity.
    + exists e. rewrite <- He. vm_compute. reflexivity.
Defined.

(** An archive of 250 files: the driver has started 99 closures and none
    has moved yet; it waits. *)
Lemma batch_barrier_witness :
  let s := Demo.driverAhead 100 Demo.etag Demo.roomy "http://src/many.zip" in
  maxFileCount Demo.roomy <= max_int /\
  length (uploadWg s) = 99%nat /\
  Z.of_nat (length (uploadWg s)) <= MAX_UPLOAD_WORKERS /\
  @drive Demo.standard Demo.roomy s = None.
Proof.
  intros s.
  assert (maxFileCount Demo.roomy <= max_int) as Hmax by (vm_compute; discriminate).
  split; [exact Hmax|]. split; [vm_compute; reflexivity|].
  destruct (@batch_barrier Demo.standard Demo.roomy (Demo.request "http://src/many.zip")
              [] s Hmax (driverAhead_reachable _ _ _ _))
    as (Hbound & _ & _ & Hbarrier).
  split; [exact Hbound|].
  edestruct Hbarrier as (_ & _ & Hblocked & _); [vm_compute; reflexivity|].
  apply Hblocked. vm_compute. discriminate.
Defined.

(** C2 fails.  The second entry of the archive breaks off: the call has
    returned the error and the closure of the first entry has not even
    issued its put.  With 120 good entries before the broken one, the 99
    closures started before the barrier have finished and the 21 started
    since are still there when the call returns. *)
Lemma return_with_uploads_outstanding_counterexample :
  let s := Demo.driverAhead 2000 Demo.etag Demo.unzipper "http://src/truncated.zip" in
  let s' := Demo.driverAhead 2000 Demo.etag Demo.roomy "http://src/long-truncated.zip" in
  (@reachable Demo.standard Demo.unzipper (Demo.request "http://src/truncated.zip") [] s /\
   returned s = Some (Err "unzip the file content failed, unexpected EOF") /\
   uploadWg s =
     [Uploading {| fileName := "out/a.txt"; fileSize := 10; uptoken := "ak:bkt";
                   unzipData := "0123456789";
                   unzipFile := {| Key := "out/a.txt"; Hash := EmptyString;
                                   Error := EmptyString |} |}] /\
   calls s = []) /\
  (@reachable Demo.standard Demo.roomy (Demo.request "http://src/long-truncated.zip") [] s' /\
   returned s' = Some (Err "unzip the file content failed, unexpected EOF") /\
   length (uploadWg s') = 21%nat /\ length (Files s') = 99%nat).
Proof.
  split.
  - split; [apply driverAhead_reachable|]. vm_compute. done.
  - split; [apply driverAhead_reachable|]. vm_compute. done.
Qed.

(** The move before that return: the driver is at the broken entry with 21
    closures started and unfinished. *)
Lemma extraction_failure_returns_at_once_witness :
  let s := Demo.driverAhead 319 Demo.etag Demo.roomy "http://src/long-truncated.zip" in
  let e := "unzip the file content failed, unexpected EOF" in
  length (uploadWg s) = 21%nat /\
  @drive Demo.standard Demo.roomy s = Some (setDriver (Return (Err e)) s) /\
  uploadWg (setDriver (Return (Err e)) s) = uploadWg s.
Proof.
  intros s e. split; [vm_compute; reflexivity|].
  destruct (@extraction_failure_returns_at_once Demo.standard Demo.roomy
              (Demo.request "http://src/long-truncated.zip") [] s
              {| bucket := "bkt"; prefix := "out/"; overwrite := false;
                 policy := {| Scope := "bkt" |}; uploadCounter := 120 |}
              Demo.unreadable [] e)
    as (Hdrive & Hsame & _).
  - vm_compute. discriminate.
  - apply driverAhead_reachable.
  - vm_compute. reflexivity.
  - vm_compute. reflexivity.
  - reflexivity.
  - vm_compute. reflexivity.
  - split; [exact Hdrive|exact Hsame].
Defined.

(** The archive of eleven files under the default configuration. *)
Lemma too_many_entries_fatal_witness :
  InitConfig (Ok (Ok Demo.defaults)) = Ok Demo.unzipper /\
  let s := @enter Demo.standard Demo.unzipper (Demo.request "http://src/eleven.zip") [] in
  returned s = Some (Err "zip files count exceeds the limit") /\
  calls s = [] /\ Files s = [] /\ uploadWg s = [] /\ world s = [].
Proof.
  split; [reflexivity|].
  apply (@too_many_entries_fatal Demo.standard Demo.unzipper
           (Demo.request "http://src/eleven.zip") [] "bkt" "out/" false (Demo.numbered 11)).
  - vm_compute. reflexivity.
  - vm_compute. reflexivity.
  - apply rtc_refl.
Defined.

(** An archive whose last entry is one byte above the limit. *)
Lemma oversized_entry_fatal_witness :
  let req := Demo.request "http://src/late-big.zip" in
  let s := @enter Demo.standard Demo.unzipper req [] in
  s = @enter Demo.standard Demo.unzipper req [] /\
  (returned s = Some (Err "zip file length exceeds the limit") \/
   returned s = Some (Err "zip files count exceeds the limit")) /\
  calls s = [] /\ Files s = [] /\ uploadWg s = [] /\ world s = [].
Proof.
  apply (@oversized_entry_fatal Demo.standard Demo.unzipper
           (Demo.request "http://src/late-big.zip") [] "bkt" "out/" false
           [Demo.file "a.txt" 10 "0123456789"; Demo.file "big.bin" 104857601 "0"]).
  - vm_compute. reflexivity.
  - apply Exists_cons_tl, Exists_cons_hd. vm_compute. reflexivity.
  - apply rtc_refl.
Defined.

(** * Further properties of the unzip operation *)

Section Further.

Context `{Collaborators}.
Variable this : Unzipper.

Implicit Types (s : State) (t : Task) (g : Goroutine) (fr : Frame).

(** ** A report is returned after the join *)

(** When the call returns a report, every closure it started has
    finished: the report is what the closures have appended, and nothing
    can happen any more. *)
Theorem report_after_join req w s files :
  reachable this req w s -> returned s = Some (Ok files) ->
  Files s = files /\ uploadWg s = [] /\ (forall s', ~ step this s s').
Proof.
  intros Hs Hr. pose proof (joinedInv_reachable this _ _ _ Hs) as Hinv.
  unfold joinedInv, returned in *.
  destruct (driver s) as [| | |[files'|e]] eqn:Hdr; simplify_eq.
  destruct Hinv as [-> Hwg]. split_and!; try done.
  intros s' Hstep. eapply settled_stuck; [|exact Hstep]. split; eauto.
Qed.

(** ** One put for each outcome *)

Lemma put_callKey settings t w : callKey (put settings t w).1 = fileName t.
Proof. unfold put. by destruct (_ <=? _). Qed.

Lemma fromEntry_Key b p o zipFiles t :
  fromEntry this b p o zipFiles t -> Key (unzipFile t) = fileName t.
Proof. by intros (zipFile & n & data & _ & _ & _ & _ & ->). Qed.

Lemma length_omap_le {A B} (f : A -> option B) (l : list A) :
  (length (omap f l) <= length l)%nat.
Proof. induction l as [|a l IH]; csimpl; [done|]. destruct (f a); simpl; lia. Qed.

Lemma putsInv_step b p o zipFiles s s' :
  provenance this b p o zipFiles s -> putsInv s -> step this s s' -> putsInv s'.
Proof.
  intros (_ & Hwg & _) Hinv [Hdrive|i Ha]; unfold putsInv in *.
  - drive_cases Hdrive; rewrite ?omap_app; csimpl in *; rewrite ?app_nil_r in *; done.
  - apply advance_inv in Ha
      as (_ & _ & [(t & others & Hs & Hs' & -> & _ & ->)|(f & Hs & -> & _ & ->)]).
    + rewrite Hs in Hwg. apply Forall_cons in Hwg as [Ht _].
      rewrite Hs in Hinv. csimpl in Hinv.
      rewrite Hs', map_app, Hinv. csimpl.
      rewrite put_callKey, record_Key, (fromEntry_Key _ _ _ _ _ Ht).
      rewrite <- List.app_assoc. f_equiv. symmetry. apply Permutation_cons_append.
    + rewrite Hs in Hinv. csimpl in Hinv. rewrite Hinv, map_app. csimpl.
      rewrite <- List.app_assoc. done.
Qed.

Lemma putsInv_reachable req w b p o zipFiles s :
  precheck this req = Ok (b, p, o, zipFiles) ->
  reachable this req w s -> putsInv s.
Proof.
  intros Hpre Hs.
  cut (provenance this b p o zipFiles s /\ putsInv s); [by intros []|].
  revert s Hs. apply invariant.
  - split; [by apply provenance_enter|]. unfold enter. rewrite Hpre. by unfold putsInv.
  - intros s s' [Hp Hk] Hstep. split; eauto using provenance_step, putsInv_step.
Qed.

(** In a call that returns a report, each regular entry has been put
    once: the keys of the puts are, as a multiset, the keys of the report,
    and there are as many puts as regular entries. *)
Theorem one_put_per_outcome req w b p o zipFiles s files :
  precheck this req = Ok (b, p, o, zipFiles) ->
  reachable this req w s -> returned s = Some (Ok files) ->
  map callKey (calls s) ≡ₚ map Key files /\
  length (calls s) = length (regular zipFiles).
Proof.
  intros Hpre Hs Hr.
  pose proof (putsInv_reachable _ _ _ _ _ _ _ Hpre Hs) as Hputs.
  pose proof (joinedInv_reachable this _ _ _ Hs) as Hjoin.
  unfold joinedInv, returned, putsInv in *.
  destruct (driver s) as [| | |[files'|e]] eqn:Hdr; simplify_eq.
  destruct Hjoin as [-> Hwg]. rewrite Hwg in Hputs. simpl in Hputs.
  rewrite app_nil_r in Hputs. split; [done|].
  assert (returned s = Some (Ok (Files s))) as Hr by (unfold returned; by rewrite Hdr).
  pose proof (report_keys_of_entries this _ _ _ _ _ _ _ _ Hpre Hs Hr) as Hkeys.
  pose proof (report_extracts this _ _ _ _ _ _ _ _ Hpre Hs Hr) as Hall.
  rewrite <- (expectedKeys_length p _ Hall).
  apply Permutation_length in Hputs, Hkeys. rewrite !length_map in *. lia.
Qed.

(** ** No more puts than entries *)

Lemma boundInv_step zipFiles s s' :
  boundInv zipFiles s -> step this s s' -> boundInv zipFiles s'.
Proof.
  intros Hinv [Hdrive|i Ha]; unfold boundInv in *.
  - drive_cases Hdrive; rewrite ?length_app; simpl in *; lia.
  - pose proof Ha as (Hdr & _)%advance_inv. rewrite Hdr.
    apply advance_inv in Ha
      as (_ & _ & [(t & others & Hs & Hs' & -> & _)|(f & Hs & -> & _)]).
    + apply Permutation_length in Hs, Hs'. simpl in *. lia.
    + apply Permutation_length in Hs. rewrite length_app. simpl in *. lia.
Qed.

(** At no time has the call issued more puts than the archive has
    entries, hence never more than the configured maximum. *)
Theorem puts_bounded req w b p o zipFiles s :
  precheck this req = Ok (b, p, o, zipFiles) ->
  reachable this req w s ->
  (length (calls s) <= length zipFiles)%nat /\
  Z.of_nat (length (calls s)) <= maxFileCount this.
Proof.
  intros Hpre Hs.
  assert (boundInv zipFiles s) as Hbound.
  { revert s Hs. apply invariant; [|apply boundInv_step].
    unfold enter, boundInv. rewrite Hpre. simpl. lia. }
  pose proof (putsInv_reachable _ _ _ _ _ _ _ Hpre Hs) as Hputs.
  apply Permutation_length in Hputs. rewrite length_app, !length_map in Hputs.
  pose proof (length_omap_le recording (uploadWg s)) as Hrec.
  apply precheck_Ok in Hpre as (_ & Hcount & _).
  unfold boundInv in Hbound. lia.
Qed.

(** ** The first entry that fails decides the error *)

Lemma fails_iteration fr zipFile e :
  fails zipFile e -> iteration this fr zipFile = IterReturn e.
Proof.
  unfold iteration. intros [Hname|(Hname & Hdir & Hread)].
  - by rewrite Hname.
  - destruct (decodeName (Name zipFile)); [|done]. by rewrite Hdir, Hread.
Qed.

Lemma extracts_iteration fr zipFile e :
  extracts zipFile -> iteration this fr zipFile = IterReturn e -> False.
Proof.
  intros [Hname Hdata] [Hfail|[Hdir Hfail]]%iteration_Return.
  - by rewrite Hfail in Hname.
  - specialize (Hdata Hdir). by rewrite Hfail in Hdata.
Qed.

Lemma firstFailureInv_step zipFile e after s s' :
  fails zipFile e ->
  firstFailureInv zipFile e after s -> step this s s' ->
  firstFailureInv zipFile e after s'.
Proof.
  intros Hfail Hinv [Hdrive|i Ha]; unfold firstFailureInv in *.
  - drive_cases Hdrive; try done; destruct Hinv as ([|z' before] & Hrest & Hbefore);
      simplify_eq/=;
      try match goal with
          | E : iteration _ ?fr ?z = _ |- _ =>
            rewrite (fails_iteration fr z e Hfail) in E; by simplify_eq
          end;
      try match goal with
          | E : iteration _ _ _ = IterReturn _ |- _ =>
            apply Forall_inv in Hbefore;
            by destruct (extracts_iteration _ _ _ Hbefore E)
          end;
      try (exists before; split; [done|by eapply Forall_inv_tail]).
  - apply advance_inv in Ha as (Hdr & _). by rewrite Hdr.
Qed.

(** When the entries before [zipFile] extract and [zipFile] does not, the
    call returns the error of [zipFile], whatever comes after it and
    whatever the uploads already started do. *)
Theorem first_failure_returned req w b p o before zipFile after e :
  precheck this req = Ok (b, p, o, before ++ zipFile :: after) ->
  Forall extracts before ->
  fails zipFile e ->
  (forall s r, reachable this req w s -> returned s = Some r -> r = Err e) /\
  (forall s, reachable this req w s ->
     exists s', rtc (step this) s s' /\ returned s' = Some (Err e)).
Proof.
  intros Hpre Hbefore Hfail.
  assert (forall s r, reachable this req w s -> returned s = Some r -> r = Err e) as Herr.
  { intros s r Hs Hr.
    assert (firstFailureInv zipFile e after s) as Hinv.
    { revert s Hs Hr. intros s Hs _. revert s Hs. apply invariant.
      - unfold enter, firstFailureInv. rewrite Hpre. simpl. by exists before.
      - intros s1 s2 Hinv Hstep. by eapply firstFailureInv_step. }
    unfold firstFailureInv, returned in *.
    destruct (driver s) as [| | |[files|e']]; by simplify_eq. }
  split; [done|].
  intros s Hs. destruct (returns this _ _ _ Hs) as (s' & r & Hrtc & Hs' & Hr & _).
  rewrite (Herr _ _ Hs' Hr) in Hr. by exists s'.
Qed.

End Further.

Section Tokens.

Context `{Collaborators}.
Variable this : Unzipper.

(** ** The scope of the upload token *)

(** Every put carries a token made for the bucket alone when [overwrite]
    is off, and for the bucket and the key of that very put when it is on;
    and its key begins with the prefix. *)
Theorem token_scope req w b p o zipFiles s c :
  precheck this req = Ok (b, p, o, zipFiles) ->
  reachable this req w s -> c ∈ calls s ->
  callToken c =
    policy_Token {| Scope := if o then b +:+ ":" +:+ callKey c else b |} (mac this) /\
  exists decodedName, callKey c = p +:+ decodedName.
Proof.
  intros Hpre Hs Hin.
  destruct (provenance_reachable this b p o zipFiles _ _ _ Hpre Hs) as (_ & _ & _ & Hc & _).
  rewrite Forall_forall in Hc.
  destruct (Hc c Hin) as (t & w' & (zipFile & n & data & _ & _ & _ & _ & ->) & ->).
  unfold putCall, put, taskOf; simpl. destruct (_ <=? _); simpl; eauto.
Qed.

(** ** Requests refused before the download *)


(** ** Outcomes and puts are only ever added *)

Lemma step_appends s s' :
  step this s s' -> Files s `prefix_of` Files s' /\ calls s `prefix_of` calls s'.
Proof.
  intros [Hdrive|i Ha].
  - drive_cases Hdrive; done.
  - apply advance_inv in Ha
      as (_ & _ & [(t & others & _ & _ & -> & _ & ->)|(f & _ & -> & _ & ->)]);
      split; try done; by eexists.
Qed.

(** Whatever happens, the outcomes recorded so far and the puts issued so
    far stay as they are: later moves only append to them. *)
Theorem outcomes_only_appended s s' :
  rtc (step this) s s' ->
  Files s `prefix_of` Files s' /\ calls s `prefix_of` calls s'.
Proof.
  induction 1 as [s|s1 s2 s3 Hstep _ [IHf IHc]]; [done|].
  destruct (step_appends _ _ Hstep) as [Hf Hc]. split; by etrans.
Qed.

End Tokens.

(** ** The configuration *)

Section Configured.

Context `{Collaborators}.

Lemma boundInv_reachable this req w b p o zipFiles s :
  precheck this req = Ok (b, p, o, zipFiles) ->
  reachable this req w s -> boundInv zipFiles s.
Proof.
  intros Hpre. apply invariant; [|apply boundInv_step].
  unfold enter, boundInv. rewrite Hpre. simpl. lia.
Qed.

(** The configuration file gives two lengths that are [uint64] and a
    count that is an [int].  The unzipper [InitConfig] makes of it has
    limits that are positive and of the same types: a length left out or
    zero gives the default of 1 GiB or 100 MiB, a count left out, zero or
    negative gives 10.  A call served by this unzipper therefore never has
    more than 100 closures started and unfinished, never issues more puts
    than the count configured (10 when none is), and never reports more
    outcomes than that. *)
Theorem InitConfig_limits config this req w s :
  0 <= UnzipMaxZipFileLength config < 2 ^ 64 ->
  0 <= UnzipMaxFileLength config < 2 ^ 64 ->
  - 2 ^ 63 <= UnzipMaxFileCount config <= max_int ->
  InitConfig (Ok (Ok config)) = Ok this ->
  reachable this req w s ->
  (maxZipFileLength this =
     (if decide (UnzipMaxZipFileLength config = 0) then 1073741824
      else UnzipMaxZipFileLength config) /\
   maxFileLength this =
     (if decide (UnzipMaxFileLength config = 0) then 104857600
      else UnzipMaxFileLength config) /\
   maxFileCount this =
     (if decide (0 < UnzipMaxFileCount config) then UnzipMaxFileCount config
      else 10)) /\
  (0 < maxZipFileLength this < 2 ^ 64 /\ 0 < maxFileLength this < 2 ^ 64 /\
   0 < maxFileCount this <= max_int) /\
  Z.of_nat (length (uploadWg s)) <= MAX_UPLOAD_WORKERS /\
  Z.of_nat (length (calls s)) <=
    (if decide (0 < UnzipMaxFileCount config) then UnzipMaxFileCount config else 10) /\
  (forall files, returned s = Some (Ok files) ->
     Z.of_nat (length files) <=
       (if decide (0 < UnzipMaxFileCount config) then UnzipMaxFileCount config
        else 10)).
Proof.
  intros Hzip Hfile Hcount Hinit Hs.
  assert (maxZipFileLength this =
            (if decide (UnzipMaxZipFileLength config = 0) then 1073741824
             else UnzipMaxZipFileLength config) /\
          maxFileLength this =
            (if decide (UnzipMaxFileLength config = 0) then 104857600
             else UnzipMaxFileLength config) /\
          maxFileCount this =
            (if decide (0 < UnzipMaxFileCount config) then UnzipMaxFileCount config
             else 10)) as (Hz & Hf & Hc).
  { unfold InitConfig in Hinit. simpl in Hinit. injection Hinit as <-. simpl.
    unfold UNZIP_MAX_ZIP_FILE_LENGTH, UNZIP_MAX_FILE_LENGTH, UNZIP_MAX_FILE_COUNT.
    repeat case_decide;
      destruct (Z.leb_spec (UnzipMaxZipFileLength config) 0);
      destruct (Z.leb_spec (UnzipMaxFileLength config) 0);
      destruct (Z.leb_spec (UnzipMaxFileCount config) 0); split_and!; lia. }
  assert (0 < maxFileCount this <= max_int) as Hmax.
  { rewrite Hc. unfold max_int in *. case_decide; lia. }
  split; [done|]. split.
  { rewrite Hz, Hf. split_and!; try apply Hmax; repeat case_decide; lia. }
  rewrite <- Hc.
  destruct (precheck this req) as [[[[b p] o] zipFiles]|e] eqn:Hpre.
  - destruct (countInv_reachable this _ _ _ _ _ _ _ (proj2 Hmax) Hpre Hs) as [Hwg _].
    pose proof (boundInv_reachable _ _ _ _ _ _ _ _ Hpre Hs) as Hbound.
    pose proof (putsInv_reachable this _ _ _ _ _ _ _ Hpre Hs) as Hputs.
    pose proof (joinedInv_reachable this _ _ _ Hs) as Hjoin.
    apply Permutation_length in Hputs. rewrite length_app, !length_map in Hputs.
    pose proof (length_omap_le recording (uploadWg s)) as Hrec.
    apply precheck_Ok in Hpre as (_ & Hlen & _).
    unfold boundInv in Hbound. split_and!; [done|lia|].
    intros files Hr. unfold returned, joinedInv in *.
    destruct (driver s) as [| | |[files'|e]]; simplify_eq.
    destruct Hjoin as [-> _]. lia.
  - rewrite (refused _ _ _ _ _ Hpre Hs). simpl. unfold MAX_UPLOAD_WORKERS.
    split_and!; [lia|lia|done].
Qed.

End Configured.

(** ** Names and lengths *)

(** A name made of ASCII bytes only is valid UTF-8, so it is kept as it is
    and the GBK decoder is not asked. *)
Theorem ascii_name_kept `{Collaborators} (fileName : string) :
  Forall (fun c => (N_of_ascii c < 128)%N) (String.list_ascii_of_string fileName) ->
  utf8.Valid fileName = true /\ decodeName fileName = Ok fileName.
Proof.
  intros Hascii.
  assert (utf8.Valid fileName = true) as Hvalid.
  { unfold utf8.Valid.
    induction Hascii as [|c cs Hc _ IH]; simpl; [done|].
    by destruct (N.ltb_spec (N_of_ascii c) 128); [|lia]. }
  split; [done|]. unfold decodeName. by rewrite Hvalid.
Qed.

(** The length handed to the resumable put is the declared size read as an
    [int64]: it is the declared size below [2^63] and negative from there
    on. *)
Theorem resumable_length_wraps `{Collaborators} settings (t : Task) (w : World) :
  0 <= fileSize t < 2 ^ 64 ->
  rputThreshold < fileSize t ->
  exists len,
    (put settings t w).1 = RioPut settings (uptoken t) (fileName t) (unzipData t) len /\
    - 2 ^ 63 <= len <= max_int /\
    (fileSize t <= max_int -> len = fileSize t) /\
    (max_int < fileSize t -> len = fileSize t - 2 ^ 64 /\ len < 0).
Proof.
  intros Hsize Hbig. exists (int64_of_uint64 (fileSize t)). split.
  { unfold put. by destruct (Z.leb_spec (fileSize t) rputThreshold); [lia|]. }
  unfold int64_of_uint64, wrap_int, max_int.
  destruct (Z.le_gt_cases (fileSize t) (2 ^ 63 - 1)).
  - rewrite Z.mod_small by lia. lia.
  - replace (fileSize t + 2 ^ 63) with ((fileSize t - 2 ^ 63) + 1 * 2 ^ 64) by lia.
    rewrite Z.mod_add by lia. rewrite Z.mod_small by lia. lia.
Qed.

(** * Properties of the converters *)

Section Html2PdfProperties.

Context {collaborators : Collaborators} {shell : Shell}.

Import html2pdf.

(** What a successful [parse] says of its options. *)
Lemma pdf_parse_Ok cmd url options :
  html2pdf.parse cmd = Ok (url, options) ->
  1 <= Copies options /\
  (GetParam cmd "copies/\d+" "copies" = EmptyString -> Copies options = 1) /\
  (GetParam cmd "copies/\d+" "copies" <> EmptyString ->
   Copies options = Atoi (GetParam cmd "copies/\d+" "copies")) /\
  (GetParam cmd "collate/[0|1]" "collate" = EmptyString -> Collate options = true) /\
  (Collate options = false -> Atoi (GetParam cmd "collate/[0|1]" "collate") = 0) /\
  (Gray options = true -> Atoi (GetParam cmd "gray/[0|1]" "gray") = 1) /\
  (LowQuality options = true -> Atoi (GetParam cmd "low/[0|1]" "low") = 1).
Proof.
  unfold html2pdf.parse. destruct (regexp_MatchString _ cmd); simpl; [|done].
  destruct (GetParamDecoded cmd _ "url") as [url'|e]; simpl; [|done].
  destruct (GetParamDecoded cmd _ "title") as [title|e]; simpl; [|done].
  destruct (String.eqb_spec (GetParam cmd "copies/\d+" "copies") EmptyString)
    as [Hcopies|Hcopies]; simpl.
  - intros [= <- <-]; simpl.
    destruct (String.eqb_spec (GetParam cmd "collate/[0|1]" "collate") EmptyString);
      destruct (String.eqb_spec (GetParam cmd "gray/[0|1]" "gray") EmptyString);
      destruct (String.eqb_spec (GetParam cmd "low/[0|1]" "low") EmptyString);
      split_and!; try done; try lia;
      rewrite ?negb_false_iff; intros ?%Z.eqb_eq; done.
  - destruct (Z.leb_spec (Atoi (GetParam cmd "copies/\d+" "copies")) 0); simpl; [done|].
    intros [= <- <-]; simpl.
    destruct (String.eqb_spec (GetParam cmd "collate/[0|1]" "collate") EmptyString);
      destruct (String.eqb_spec (GetParam cmd "gray/[0|1]" "gray") EmptyString);
      destruct (String.eqb_spec (GetParam cmd "low/[0|1]" "low") EmptyString);
      split_and!; try done; try lia;
      rewrite ?negb_false_iff; intros ?%Z.eqb_eq; done.
Qed.

(** The options [parse] gives always ask for at least one copy; without a
    [copies] parameter it is one copy, without a [collate] parameter the
    copies are collated, and collating is switched off only by a [collate]
    parameter that reads as 0. *)
Theorem pdf_parse_options cmd url options :
  html2pdf.parse cmd = Ok (url, options) ->
  1 <= Copies options /\
  (GetParam cmd "copies/\d+" "copies" = EmptyString -> Copies options = 1) /\
  (GetParam cmd "copies/\d+" "copies" <> EmptyString ->
   Copies options = Atoi (GetParam cmd "copies/\d+" "copies")) /\
  (GetParam cmd "collate/[0|1]" "collate" = EmptyString -> Collate options = true) /\
  (Collate options = false -> Atoi (GetParam cmd "collate/[0|1]" "collate") = 0) /\
  (Gray options = true -> Atoi (GetParam cmd "gray/[0|1]" "gray") = 1) /\
  (LowQuality options = true -> Atoi (GetParam cmd "low/[0|1]" "low") = 1).
Proof. apply pdf_parse_Ok. Qed.

(** The arguments of the converter begin with [-q] and end with the
    collate flag and the number of copies; between them come at most eight
    more, for the options that are set. *)
Theorem pdf_cmdParams_shape options :
  exists flags,
    cmdParams options =
      "-q" :: flags ++ [if Collate options then "--collate" else "--no-collate";
                        "--copies"; pretty (Copies options)] /\
    (length flags <= 8)%nat.
Proof.
  unfold cmdParams.
  exists ((if Gray options then ["--grayscale"] else [])
          ++ (if LowQuality options then ["--lowquality"] else [])
          ++ (if String.eqb (Orientation options) EmptyString then []
              else ["--orientation"; Orientation options])
          ++ (if String.eqb (Size options) EmptyString then []
              else ["--page-size"; Size options])
          ++ (if String.eqb (Title options) EmptyString then []
              else ["--title"; Title options])).
  split.
  - rewrite <- !List.app_assoc. reflexivity.
  - rewrite !length_app.
    destruct (Gray options), (LowQuality options),
      (String.eqb (Orientation options) EmptyString),
      (String.eqb (Size options) EmptyString),
      (String.eqb (Title options) EmptyString); cbn [length]; lia.
Qed.

(** When [Do] succeeds it has started [wkhtmltopdf] once, with the
    arguments of the parsed options followed by the source and the result
    file, and has waited for it; it removes nothing and hands back the
    result file as [application/pdf].  The source is [text/*] within the
    size limit and the copies are between 1 and the limit. *)
Theorem pdf_Do_success this req now path ty contentType trace :
  html2pdf.Do this req now = (Ok (path, ty, contentType), trace) ->
  exists url options,
    html2pdf.parse (Cmd req) = Ok (url, options) /\
    path = html2pdf.resultPath req now /\
    ty = RESULT_TYPE_OCTECT_FILE /\ contentType = "application/pdf" /\
    trace = [Started "wkhtmltopdf" (cmdParams options ++ [url; path]); Waited] /\
    String.prefix "text/" (SrcMimeType req) = true /\
    SrcFsize req <= maxPageSize this /\
    1 <= Copies options <= maxCopies this /\
    (exists size, Stat (exec_Command "wkhtmltopdf" (cmdParams options ++ [url; path]))
                  = Ok size /\ size <> 0).
Proof.
  unfold html2pdf.Do.
  destruct (html2pdf.parse (Cmd req)) as [[url options]|e] eqn:Hparse; [|done].
  destruct (String.prefix "text/" (SrcMimeType req)) eqn:Hmime; simpl; [|done].
  destruct (Z.ltb_spec (maxPageSize this) (SrcFsize req)); [done|].
  destruct (Z.ltb_spec (maxCopies this) (Copies options)); [done|].
  destruct (StderrPipe _); [|done]. destruct (Start _); [|done].
  destruct (ReadStderr _); [|done]. destruct (Wait _); [|done].
  destruct (Stat _) as [size|e] eqn:Hstat; [|done].
  destruct (Z.eqb_spec size 0); [done|].
  intros [= <- <- <- <-]. exists url, options.
  pose proof (pdf_parse_Ok _ _ _ Hparse) as (Hcopies & _).
  split_and!; try done. by exists size.
Qed.

(** When [Do] fails, either the converter was not started and nothing was
    touched, or it was started and the last thing [Do] has done is to
    remove the result file.  A converter whose error output could not be
    read is not waited for. *)
Theorem pdf_Do_failure this req now e trace :
  html2pdf.Do this req now = (Err e, trace) ->
  trace = [] \/
  exists args,
    (trace = [Started "wkhtmltopdf" args; Removed (html2pdf.resultPath req now)] /\
     isOk (ReadStderr (exec_Command "wkhtmltopdf" args)) = false) \/
    (trace = [Started "wkhtmltopdf" args; Waited; Removed (html2pdf.resultPath req now)] /\
     isOk (ReadStderr (exec_Command "wkhtmltopdf" args)) = true).
Proof.
  unfold html2pdf.Do.
  destruct (html2pdf.parse (Cmd req)) as [[url options]|e'] eqn:Hparse;
    [|intros [= <- <-]; by left].
  destruct (String.prefix "text/" (SrcMimeType req)); simpl; [|intros [= <- <-]; by left].
  destruct (_ <? _); [intros [= <- <-]; by left|].
  destruct (_ <? _); [intros [= <- <-]; by left|].
  destruct (StderrPipe _); [|intros [= <- <-]; by left].
  destruct (Start _); [|intros [= <- <-]; by left].
  destruct (ReadStderr _) eqn:Hread.
  - destruct (Wait _).
    + destruct (match Stat _ with Ok size => _ | Err _ => _ end); [|done].
      intros [= <- <-]. right. eexists. right. by rewrite Hread.
    + intros [= <- <-]. right. eexists. right. by rewrite Hread.
  - intros [= <- <-]. right. eexists. left. by rewrite Hread.
Qed.


(** The configuration file gives a page size that is a [uint64] and a
    number of copies that is an [int].  The converter [InitConfig] makes of
    it has limits that are positive and of the same types: a page size left
    out or zero gives 10 MiB, copies left out, zero or negative give 10.
    So whatever [Do] of this converter converts is a source no longer than
    the page size configured (10 MiB when none is), with copies between 1
    and the copies configured (10 when none are); a longer source, and then
    more copies, are refused before the converter is started. *)
Theorem pdf_InitConfig_limits config this req now :
  0 <= Html2PdfMaxPageSize config < 2 ^ 64 ->
  - 2 ^ 63 <= Html2PdfMaxCopies config <= max_int ->
  html2pdf.InitConfig (Ok (Ok config)) = Ok this ->
  (maxPageSize this =
     (if decide (Html2PdfMaxPageSize config = 0) then 10485760
      else Html2PdfMaxPageSize config) /\
   maxCopies this =
     (if decide (0 < Html2PdfMaxCopies config) then Html2PdfMaxCopies config
      else 10)) /\
  (0 < maxPageSize this < 2 ^ 64 /\ 0 < maxCopies this <= max_int) /\
  (forall path ty contentType trace,
     html2pdf.Do this req now = (Ok (path, ty, contentType), trace) ->
     SrcFsize req <=
       (if decide (Html2PdfMaxPageSize config = 0) then 10485760
        else Html2PdfMaxPageSize config) /\
     exists url options,
       html2pdf.parse (Cmd req) = Ok (url, options) /\
       1 <= Copies options <=
         (if decide (0 < Html2PdfMaxCopies config) then Html2PdfMaxCopies config
          else 10)) /\
  (forall url options,
     html2pdf.parse (Cmd req) = Ok (url, options) ->
     String.prefix "text/" (SrcMimeType req) = true ->
     ((if decide (Html2PdfMaxPageSize config = 0) then 10485760
       else Html2PdfMaxPageSize config) < SrcFsize req ->
      html2pdf.Do this req now = (Err "page file length exceeds the limit", [])) /\
     (SrcFsize req <=
        (if decide (Html2PdfMaxPageSize config = 0) then 10485760
         else Html2PdfMaxPageSize config) ->
      (if decide (0 < Html2PdfMaxCopies config) then Html2PdfMaxCopies config
       else 10) < Copies options ->
      html2pdf.Do this req now = (Err "pdf copies exceeds the limit", []))).
Proof.
  intros Hsize Hcopies Hinit.
  assert (maxPageSize this =
            (if decide (Html2PdfMaxPageSize config = 0) then 10485760
             else Html2PdfMaxPageSize config) /\
          maxCopies this =
            (if decide (0 < Html2PdfMaxCopies config) then Html2PdfMaxCopies config
             else 10)) as [Hp Hc].
  { unfold html2pdf.InitConfig in Hinit. simpl in Hinit. injection Hinit as <-. simpl.
    unfold HTML2PDF_MAX_PAGE_SIZE, HTML2PDF_MAX_COPIES.
    repeat case_decide;
      destruct (Z.leb_spec (Html2PdfMaxPageSize config) 0);
      destruct (Z.leb_spec (Html2PdfMaxCopies config) 0); split; lia. }
  split; [done|]. rewrite <- Hp, <- Hc. split_and!.
  - repeat case_decide; lia.
  - repeat case_decide; lia.
  - repeat case_decide; lia.
  - unfold max_int in *. repeat case_decide; lia.
  - intros path ty contentType trace. unfold html2pdf.Do.
    destruct (html2pdf.parse (Cmd req)) as [[url options]|e] eqn:Hparse; [|done].
    destruct (String.prefix "text/" (SrcMimeType req)); simpl; [|done].
    destruct (Z.ltb_spec (maxPageSize this) (SrcFsize req)); [done|].
    destruct (Z.ltb_spec (maxCopies this) (Copies options)); [done|].
    intros _. split; [done|]. exists url, options.
    pose proof (pdf_parse_Ok _ _ _ Hparse) as (Hone & _). done.
  - intros url options Hparse Hmime. unfold html2pdf.Do. rewrite Hparse, Hmime. simpl.
    split.
    + intros Hlong.
      by destruct (Z.ltb_spec (maxPageSize this) (SrcFsize req)); [|lia].
    + intros Hshort Hmany.
      destruct (Z.ltb_spec (maxPageSize this) (SrcFsize req)); [lia|].
      by destruct (Z.ltb_spec (maxCopies this) (Copies options)); [|lia].
Qed.

End Html2PdfProperties.

Section Html2ImageProperties.

Context {collaborators : Collaborators} {shell : Shell}.

Import html2image.

Lemma dimension_Ok cmd pattern key invalid value :
  dimension cmd pattern key invalid = Ok value ->
  0 <= value /\ (GetParam cmd pattern key = EmptyString -> value = 0).
Proof.
  unfold dimension.
  destruct (String.eqb_spec (GetParam cmd pattern key) EmptyString).
  - intros [= <-]. done.
  - destruct (Z.leb_spec (Atoi (GetParam cmd pattern key)) 0); [done|].
    intros [= <-]. split; [lia|done].
Qed.

(** What a successful [parse] says of its options. *)
Lemma image_parse_Ok cmd url options :
  html2image.parse cmd = Ok (url, options) ->
  0 <= CropH options /\ 0 <= CropW options /\ 0 <= CropX options /\
  0 <= CropY options /\ 0 <= Height options /\ 0 <= Width options /\
  0 <= Quality options <= 100 /\
  Format options <> EmptyString /\
  (GetParam cmd "format/(png|jpg|jpeg)" "format" = EmptyString ->
   Format options = "jpg") /\
  (GetParam cmd "quality/\d+" "quality" = EmptyString -> Quality options = 0).
Proof.
  unfold html2image.parse. destruct (regexp_MatchString _ cmd); simpl; [|done].
  destruct (GetParamDecoded cmd _ "url") as [url'|e]; simpl; [|done].
  destruct (dimension cmd _ "croph" _) as [cropH|e] eqn:HcropH; simpl; [|done].
  destruct (dimension cmd _ "cropw" _) as [cropW|e] eqn:HcropW; simpl; [|done].
  destruct (dimension cmd _ "cropx" _) as [cropX|e] eqn:HcropX; simpl; [|done].
  destruct (dimension cmd _ "cropy" _) as [cropY|e] eqn:HcropY; simpl; [|done].
  destruct (dimension cmd _ "height" _) as [height|e] eqn:Hheight; simpl; [|done].
  destruct (dimension cmd _ "width" _) as [width|e] eqn:Hwidth; simpl; [|done].
  apply dimension_Ok in HcropH as [? _], HcropW as [? _], HcropX as [? _],
    HcropY as [? _], Hheight as [? _], Hwidth as [? _].
  destruct (String.eqb_spec (GetParam cmd "quality/\d+" "quality") EmptyString)
    as [Hq|Hq]; simpl.
  - intros [= <- <-]; simpl.
    destruct (String.eqb_spec (GetParam cmd "format/(png|jpg|jpeg)" "format") EmptyString);
      split_and!; try done; lia.
  - destruct (Z.ltb_spec 100 (Atoi (GetParam cmd "quality/\d+" "quality")));
      destruct (Z.leb_spec (Atoi (GetParam cmd "quality/\d+" "quality")) 0);
      simpl; try done.
    intros [= <- <-]; simpl.
    destruct (String.eqb_spec (GetParam cmd "format/(png|jpg|jpeg)" "format") EmptyString);
      split_and!; try done; lia.
Qed.

(** The options [parse] gives are in range: no crop, height or width is
    negative, the quality is between 0 and 100, where 0 stands for a
    parameter that is absent, and the format is never empty: it is [jpg]
    unless a [format] parameter says otherwise. *)
Theorem image_parse_ranges cmd url options :
  html2image.parse cmd = Ok (url, options) ->
  0 <= CropH options /\ 0 <= CropW options /\ 0 <= CropX options /\
  0 <= CropY options /\ 0 <= Height options /\ 0 <= Width options /\
  0 <= Quality options <= 100 /\
  Format options <> EmptyString /\
  (GetParam cmd "format/(png|jpg|jpeg)" "format" = EmptyString ->
   Format options = "jpg") /\
  (GetParam cmd "quality/\d+" "quality" = EmptyString -> Quality options = 0).
Proof. apply image_parse_Ok. Qed.

(** After a successful [parse] the converter is always told the format,
    and the result file is named after it. *)
Theorem image_format_passed cmd url options req now :
  html2image.parse cmd = Ok (url, options) ->
  (exists before after,
     cmdParams options = before ++ "--format" :: Format options :: after) /\
  html2image.resultPath req now options =
    filepath_Join TempDir
      (Md5Hex (SrcUrl req) +:+ pretty now +:+ ".result." +:+ Format options).
Proof.
  intros (_ & _ & _ & _ & _ & _ & _ & Hformat & _)%image_parse_Ok.
  split; [|done]. unfold cmdParams.
  destruct (String.eqb_spec (Format options) EmptyString); [done|].
  exists (positive "--crop-h" (CropH options) ++ positive "--crop-w" (CropW options)
          ++ positive "--crop-x" (CropX options) ++ positive "--crop-y" (CropY options)),
         (positive "--quality" (Quality options) ++ positive "--height" (Height options)
          ++ positive "--width" (Width options)
          ++ (if Force options then ["--disable-smart-width"] else [])).
  rewrite <- !List.app_assoc. reflexivity.
Qed.

(** When [Do] succeeds it has started [wkhtmltoimage] once and waited for
    it, it removes nothing, and the content type is [image/png] for the
    format [png] and [image/jpeg] for every other format. *)
Theorem image_Do_success this req now path ty contentType trace :
  html2image.Do this req now = (Ok (path, ty, contentType), trace) ->
  exists url options,
    html2image.parse (Cmd req) = Ok (url, options) /\
    path = html2image.resultPath req now options /\
    ty = RESULT_TYPE_OCTECT_FILE /\
    (Format options = "png" -> contentType = "image/png") /\
    (Format options <> "png" -> contentType = "image/jpeg") /\
    trace = [Started "wkhtmltoimage" (cmdParams options ++ [url; path]); Waited] /\
    String.prefix "text/" (SrcMimeType req) = true /\
    SrcFsize req <= maxPageSize this.
Proof.
  unfold html2image.Do.
  destruct (html2image.parse (Cmd req)) as [[url options]|e] eqn:Hparse; [|done].
  destruct (String.prefix "text/" (SrcMimeType req)) eqn:Hmime; simpl; [|done].
  destruct (Z.ltb_spec (maxPageSize this) (SrcFsize req)); [done|].
  destruct (StderrPipe _); [|done]. destruct (Start _); [|done].
  destruct (ReadStderr _); [|done]. destruct (Wait _); [|done].
  destruct (match Stat _ with Ok size => _ | Err _ => _ end); [done|].
  intros [= <- <- <- <-]. exists url, options.
  destruct (String.eqb_spec (Format options) "png"); split_and!; done.
Qed.

(** When [Do] fails, either the converter was not started and nothing was
    touched, or it was started, with the arguments of the parsed options
    followed by the source and the result file, and the last thing [Do]
    has done is to remove that result file: the file named after the
    source, the time and the format asked for.  A converter whose error
    output could not be read is not waited for. *)
Theorem image_Do_failure this req now e trace :
  html2image.Do this req now = (Err e, trace) ->
  trace = [] \/
  exists url options,
    html2image.parse (Cmd req) = Ok (url, options) /\
    ((trace =
        [Started "wkhtmltoimage"
           (cmdParams options ++ [url; html2image.resultPath req now options]);
         Removed (html2image.resultPath req now options)] /\
      isOk (ReadStderr
              (exec_Command "wkhtmltoimage"
                 (cmdParams options ++ [url; html2image.resultPath req now options])))
        = false) \/
     (trace =
        [Started "wkhtmltoimage"
           (cmdParams options ++ [url; html2image.resultPath req now options]);
         Waited;
         Removed (html2image.resultPath req now options)] /\
      isOk (ReadStderr
              (exec_Command "wkhtmltoimage"
                 (cmdParams options ++ [url; html2image.resultPath req now options])))
        = true)).
Proof.
  unfold html2image.Do.
  destruct (html2image.parse (Cmd req)) as [[url options]|e'] eqn:Hparse;
    [|intros [= <- <-]; by left].
  destruct (String.prefix "text/" (SrcMimeType req)); simpl; [|intros [= <- <-]; by left].
  destruct (_ <? _); [intros [= <- <-]; by left|].
  destruct (StderrPipe _); [|intros [= <- <-]; by left].
  destruct (Start _); [|intros [= <- <-]; by left].
  destruct (ReadStderr _) eqn:Hread.
  - destruct (Wait _).
    + destruct (match Stat _ with Ok size => _ | Err _ => _ end); [|done].
      intros [= <- <-]. right. exists url, options. split; [done|]. right. by rewrite Hread.
    + intros [= <- <-]. right. exists url, options. split; [done|]. right. by rewrite Hread.
  - intros [= <- <-]. right. exists url, options. split; [done|]. left. by rewrite Hread.
Qed.

End Html2ImageProperties.

(** * The further properties on the sample inputs *)

Lemma report_after_join_witness :
  let s := Demo.finish Demo.etag Demo.unzipper "http://src/abc.zip" in
  returned s = Some (Ok (Files s)) /\ uploadWg s = [].
Proof.
  intros s.
  destruct (@report_after_join Demo.standard Demo.unzipper
              (Demo.request "http://src/abc.zip") [] s _
              (finish_reachable _ _ _) abc_report) as (Hfiles & Hwg & _).
  split; [|exact Hwg].
  exact (eq_trans abc_report (f_equal (fun files => Some (Ok files)) (eq_sym Hfiles))).
Defined.

Lemma one_put_per_outcome_witness :
  let s := Demo.finish Demo.etag Demo.unzipper "http://src/abc.zip" in
  exists files,
    returned s = Some (Ok files) /\
    map callKey (calls s) ≡ₚ map Key files /\
    length (calls s) = length (regular Demo.abc).
Proof.
  intros s. eexists. split; [exact abc_report|].
  apply (@one_put_per_outcome Demo.standard Demo.unzipper
           (Demo.request "http://src/abc.zip") [] "bkt" "out/" false Demo.abc s).
  - vm_compute. reflexivity.
  - apply finish_reachable.
  - exact abc_report.
Defined.

Lemma puts_bounded_witness :
  let s := Demo.driverAhead 5 Demo.etag Demo.unzipper "http://src/abc.zip" in
  (length (calls s) <= length Demo.abc)%nat /\
  Z.of_nat (length (calls s)) <= maxFileCount Demo.unzipper.
Proof.
  intros s.
  apply (@puts_bounded Demo.standard Demo.unzipper
           (Demo.request "http://src/abc.zip") [] "bkt" "out/" false Demo.abc s).
  - vm_compute. reflexivity.
  - apply driverAhead_reachable.
Defined.

Lemma first_failure_returned_witness :
  @fails Demo.standard Demo.unreadable "unzip the file content failed, unexpected EOF" /\
  returned (Demo.finish Demo.etag Demo.unzipper "http://src/truncated.zip") =
    Some (Err "unzip the file content failed, unexpected EOF").
Proof.
  assert (@fails Demo.standard Demo.unreadable
            "unzip the file content failed, unexpected EOF") as Hfail.
  { right. split_and!; vm_compute; reflexivity. }
  split; [exact Hfail|].
  destruct (@first_failure_returned Demo.standard Demo.unzipper
              (Demo.request "http://src/truncated.zip") [] "bkt" "out/" false
              [Demo.file "a.txt" 10 "0123456789"] Demo.unreadable []
              "unzip the file content failed, unexpected EOF") as [Herr _].
  - vm_compute. reflexivity.
  - all_extract.
  - exact Hfail.
  - vm_compute. reflexivity.
Defined.

Lemma token_scope_witness :
  let c := FioPut "ak:bkt" "out/a.txt" "0123456789" in
  c ∈ calls (Demo.finish Demo.etag Demo.unzipper "http://src/abc.zip") /\
  callToken c =
    @policy_Token Demo.standard {| Scope := "bkt" |} (mac Demo.unzipper) /\
  exists decodedName, callKey c = "out/" +:+ decodedName.
Proof.
  intros c.
  assert (c ∈ calls (Demo.finish Demo.etag Demo.unzipper "http://src/abc.zip"))
    as Hin by (vm_compute; left).
  split; [exact Hin|].
  apply (@token_scope Demo.standard Demo.unzipper (Demo.request "http://src/abc.zip")
           [] "bkt" "out/" false Demo.abc
           (Demo.finish Demo.etag Demo.unzipper "http://src/abc.zip") c).
  - vm_compute. reflexivity.
  - apply finish_reachable.
  - exact Hin.
Defined.


Lemma outcomes_only_appended_witness :
  let s := Demo.driverAhead 5 Demo.etag Demo.unzipper "http://src/abc.zip" in
  let s' := @run Demo.standard Demo.unzipper 100 s in
  Files s `prefix_of` Files s' /\ calls s `prefix_of` calls s'.
Proof.
  intros s s'. apply (@outcomes_only_appended Demo.standard Demo.unzipper).
  apply run_steps.
Defined.

Lemma InitConfig_limits_witness :
  let s := Demo.finish Demo.etag Demo.unzipper "http://src/abc.zip" in
  (maxZipFileLength Demo.unzipper = 1073741824 /\
   maxFileLength Demo.unzipper = 104857600 /\
   maxFileCount Demo.unzipper = 10) /\
  Z.of_nat (length (uploadWg s)) <= MAX_UPLOAD_WORKERS /\
  Z.of_nat (length (calls s)) <= 10.
Proof.
  intros s.
  destruct (@InitConfig_limits Demo.standard Demo.defaults Demo.unzipper
              (Demo.request "http://src/abc.zip") [] s)
    as (Hlimits & _ & Hwg & Hcalls & _).
  - simpl. lia.
  - simpl. lia.
  - unfold max_int. simpl. lia.
  - reflexivity.
  - apply finish_reachable.
  - split; [exact Hlimits|]. split; [exact Hwg|exact Hcalls].
Defined.

Lemma ascii_name_kept_witness :
  utf8.Valid "b/c.txt" = true /\ @decodeName Demo.standard "b/c.txt" = Ok "b/c.txt".
Proof.
  apply (@ascii_name_kept Demo.standard "b/c.txt").
  repeat (apply List.Forall_cons; [vm_compute; reflexivity|]). apply List.Forall_nil.
Defined.

Lemma resumable_length_wraps_witness :
  let t := {| fileName := "out/huge.bin"; fileSize := 2 ^ 63; uptoken := "ak:bkt";
              unzipData := "0";
              unzipFile := {| Key := "out/huge.bin"; Hash := EmptyString;
                              Error := EmptyString |} |} in
  exists len,
    (@put Demo.standard (Some rputSettings) t []).1 =
      RioPut (Some rputSettings) "ak:bkt" "out/huge.bin" "0" len /\
    len < 0.
Proof.
  intros t.
  destruct (@resumable_length_wraps Demo.standard (Some rputSettings) t [])
    as (len & Hput & _ & _ & Hneg).
  - split; [vm_compute; discriminate|vm_compute; reflexivity].
  - vm_compute. reflexivity.
  - exists len. split; [exact Hput|]. apply Hneg. vm_compute. reflexivity.
Defined.

Lemma pdf_parse_options_witness :
  let cmd := "html2pdf/url/page.example/gray/1/copies/3/title/Report" in
  exists url options,
    @html2pdf.parse DemoHtml.collaborators DemoHtml.shell cmd = Ok (url, options) /\
    1 <= html2pdf.Copies options /\ html2pdf.Collate options = true.
Proof.
  intros cmd.
  destruct (@html2pdf.parse DemoHtml.collaborators DemoHtml.shell cmd)
    as [[url options]|e] eqn:Hparse; [|vm_compute in Hparse; discriminate Hparse].
  destruct (@pdf_parse_options DemoHtml.collaborators DemoHtml.shell cmd url options Hparse)
    as (Hcopies & _ & _ & Hcollate & _).
  exists url, options. split_and!; [reflexivity|exact Hcopies|].
  apply Hcollate. vm_compute. reflexivity.
Defined.

Lemma pdf_Do_success_witness :
  let req := DemoHtml.page "html2pdf/url/page.example/gray/1/copies/3/title/Report" in
  exists url options path,
    @html2pdf.parse DemoHtml.collaborators DemoHtml.shell (Cmd req) = Ok (url, options) /\
    (@html2pdf.Do DemoHtml.collaborators DemoHtml.shell DemoHtml.pdfer req 1700000000).2 =
      [Started "wkhtmltopdf" (html2pdf.cmdParams options ++ [url; path]); Waited] /\
    1 <= html2pdf.Copies options <= 10.
Proof.
  intros req.
  destruct (@html2pdf.Do DemoHtml.collaborators DemoHtml.shell DemoHtml.pdfer req
              1700000000) as [[[[path ty] contentType]|e] trace] eqn:HDo;
    [|vm_compute in HDo; discriminate HDo].
  destruct (@pdf_Do_success DemoHtml.collaborators DemoHtml.shell DemoHtml.pdfer req
              1700000000 path ty contentType trace HDo)
    as (url & options & Hparse & _ & _ & _ & Htrace & _ & _ & Hcopies & _).
  exists url, options, path. split_and!; [exact Hparse|exact Htrace|apply Hcopies..].
Defined.

Lemma pdf_Do_failure_witness :
  let req := DemoHtml.page "html2pdf/url/blank.example" in
  exists e args,
    @html2pdf.Do DemoHtml.collaborators DemoHtml.shell DemoHtml.pdfer req 17 =
      (Err e, [Started "wkhtmltopdf" args; Waited;
               Removed (@html2pdf.resultPath DemoHtml.shell req 17)]).
Proof.
  intros req.
  destruct (@html2pdf.Do DemoHtml.collaborators DemoHtml.shell DemoHtml.pdfer req 17)
    as [[[[path ty] contentType]|e] trace] eqn:HDo;
    [vm_compute in HDo; discriminate HDo|].
  destruct (@pdf_Do_failure DemoHtml.collaborators DemoHtml.shell DemoHtml.pdfer req
              17 e trace HDo) as [Hnone|(args & [[Htrace _]|[Htrace _]])].
  - rewrite Hnone in HDo. vm_compute in HDo. discriminate HDo.
  - rewrite Htrace in HDo. vm_compute in HDo. discriminate HDo.
  - exists e, args. by rewrite Htrace.
Defined.


Lemma pdf_InitConfig_limits_witness :
  let config := {| html2pdf.Html2PdfMaxPageSize := 0; html2pdf.Html2PdfMaxCopies := 3 |} in
  let this := {| html2pdf.maxPageSize := 10485760; html2pdf.maxCopies := 3 |} in
  let req := DemoHtml.page "html2pdf/url/page.example/copies/4" in
  (0 < html2pdf.maxPageSize this < 2 ^ 64 /\ 0 < html2pdf.maxCopies this <= max_int) /\
  @html2pdf.Do DemoHtml.collaborators DemoHtml.shell this req 17 =
    (Err "pdf copies exceeds the limit", []).
Proof.
  intros config this req.
  destruct (@pdf_InitConfig_limits DemoHtml.collaborators DemoHtml.shell config this req 17)
    as (_ & Hrange & _ & Hrefused).
  - simpl. lia.
  - unfold max_int. simpl. lia.
  - reflexivity.
  - split; [exact Hrange|].
    destruct (Hrefused "page.example"
                {| html2pdf.Gray := false; html2pdf.LowQuality := false;
                   html2pdf.Orientation := EmptyString; html2pdf.Size := EmptyString;
                   html2pdf.Title := EmptyString; html2pdf.Collate := true;
                   html2pdf.Copies := 4 |}) as [_ Hcopies].
    + vm_compute. reflexivity.
    + vm_compute. reflexivity.
    + apply Hcopies; simpl; lia.
Defined.

Lemma image_parse_ranges_witness :
  let cmd := "html2image/url/page.example/croph/20/quality/90/format/png" in
  exists url options,
    @html2image.parse DemoHtml.collaborators DemoHtml.shell cmd = Ok (url, options) /\
    0 <= html2image.Quality options <= 100 /\
    html2image.Format options <> EmptyString.
Proof.
  intros cmd.
  destruct (@html2image.parse DemoHtml.collaborators DemoHtml.shell cmd)
    as [[url options]|e] eqn:Hparse; [|vm_compute in Hparse; discriminate Hparse].
  destruct (@image_parse_ranges DemoHtml.collaborators DemoHtml.shell cmd url options
              Hparse) as (_ & _ & _ & _ & _ & _ & Hquality & Hformat & _).
  exists url, options. split_and!; [reflexivity|apply Hquality..|exact Hformat].
Defined.

Lemma image_format_passed_witness :
  let cmd := "html2image/url/page.example/croph/20" in
  exists url options before after,
    @html2image.parse DemoHtml.collaborators DemoHtml.shell cmd = Ok (url, options) /\
    html2image.cmdParams options =
      before ++ "--format" :: html2image.Format options :: after.
Proof.
  intros cmd.
  destruct (@html2image.parse DemoHtml.collaborators DemoHtml.shell cmd)
    as [[url options]|e] eqn:Hparse; [|vm_compute in Hparse; discriminate Hparse].
  destruct (@image_format_passed DemoHtml.collaborators DemoHtml.shell cmd url options
              (DemoHtml.page cmd) 17 Hparse) as ((before & after & Hparams) & _).
  by exists url, options, before, after.
Defined.

Lemma image_Do_success_witness :
  let req := DemoHtml.page "html2image/url/page.example/format/jpeg" in
  exists path ty trace,
    @html2image.Do DemoHtml.collaborators DemoHtml.shell DemoHtml.imager req 17 =
      (Ok (path, ty, "image/jpeg"), trace).
Proof.
  intros req.
  destruct (@html2image.Do DemoHtml.collaborators DemoHtml.shell DemoHtml.imager req 17)
    as [[[[path ty] contentType]|e] trace] eqn:HDo;
    [|vm_compute in HDo; discriminate HDo].
  destruct (@image_Do_success DemoHtml.collaborators DemoHtml.shell DemoHtml.imager req
              17 path ty contentType trace HDo)
    as (url & options & Hparse & _ & _ & _ & Hjpeg & _).
  exists path, ty, trace. rewrite Hjpeg; [reflexivity|].
  vm_compute in Hparse. injection Hparse as <- <-. vm_compute. discriminate.
Defined.

Lemma image_Do_failure_witness :
  let req := DemoHtml.page "html2image/url/blank.example/format/jpeg" in
  exists e url options,
    @html2image.parse DemoHtml.collaborators DemoHtml.shell (Cmd req) = Ok (url, options) /\
    @html2image.Do DemoHtml.collaborators DemoHtml.shell DemoHtml.imager req 17 =
      (Err e,
       [Started "wkhtmltoimage"
          (html2image.cmdParams options
             ++ [url; @html2image.resultPath DemoHtml.shell req 17 options]);
        Waited;
        Removed (@html2image.resultPath DemoHtml.shell req 17 options)]).
Proof.
  intros req.
  destruct (@html2image.Do DemoHtml.collaborators DemoHtml.shell DemoHtml.imager req 17)
    as [[[[path ty] contentType]|e] trace] eqn:HDo;
    [vm_compute in HDo; discriminate HDo|].
  destruct (@image_Do_failure DemoHtml.collaborators DemoHtml.shell DemoHtml.imager req
              17 e trace HDo)
    as [Hnone|(url & options & Hparse & [[Htrace _]|[Htrace _]])].
  - rewrite Hnone in HDo. vm_compute in HDo. discriminate HDo.
  - rewrite Htrace in HDo. vm_compute in HDo. discriminate HDo.
  - exists e, url, options. split; [exact Hparse|]. by rewrite Htrace.
Defined.
